(** * bloom.py: a Bloom filter over SHA-1 derived hash functions

    Shallow embedding of [src/bloom.py] (Python 2, numpy) and proofs of the
    properties its specification states.

    - Python integers are [Z]; [%] and [//] are [Z.modulo] and [Z.div]
      (both round towards minus infinity, as Python's do), except that
      Python raises [ZeroDivisionError] for a zero divisor, which is
      written out.
    - A Python 2 [str] is a byte string: it is a [string] (a list of 8-bit
      [ascii] characters).
    - [numpy] [uint32] array elements are [Z] with the wrap-around modulo
      [2^32] written out at every store.
    - Exceptions are an inductive type [exn]; code that may raise returns
      [result A = exn + A].
    - Python floats and [numpy] float64 values are IEEE-754 binary64
      numbers: [spec_float] with the Standard Library's operations at
      precision 53 (round to nearest even).  [N.log], [N.exp] and the
      power [**] of a float64 are library functions: the code is modelled
      over any such functions, and what a theorem needs to know about them
      is a hypothesis. *)

From Stdlib Require Import String Ascii.
From Stdlib Require Import ZArith List Bool Lia.
From Stdlib Require Import DecimalString.
From Stdlib Require Import SpecFloat.
Import ListNotations.
Local Open Scope Z_scope.

(** ** Exceptions *)

Inductive exn : Type :=
| AssertionError
| ValueError
| ZeroDivisionError
| IndexError
| OverflowError.

Definition result (A : Type) : Type := (exn + A)%type.

Definition ok {A} (a : A) : result A := inr a.
Definition raise {A} (e : exn) : result A := inl e.

Definition bind {A B} (c : result A) (f : A -> result B) : result B :=
  match c with
  | inl e => inl e
  | inr a => f a
  end.

Notation "x <- c ;; k" := (bind c (fun x => k))
  (at level 61, c at next level, right associativity).

(** ** hashlib.sha1

    [hashlib] is not part of the repository; SHA-1 (FIPS 180-4) is written
    out so that the hash functions of the filter can be evaluated. *)

Module SHA1.

Definition w32 (x : Z) : Z := x mod 2 ^ 32.

Definition add32 (x y : Z) : Z := w32 (x + y).

Definition rotl (n x : Z) : Z :=
  w32 (Z.lor (Z.shiftl x n) (Z.shiftr x (32 - n))).

Definition not32 (x : Z) : Z := w32 (Z.lnot x).

Definition Ch (x y z : Z) : Z := Z.lxor (Z.land x y) (Z.land (not32 x) z).
Definition Parity (x y z : Z) : Z := Z.lxor (Z.lxor x y) z.
Definition Maj (x y z : Z) : Z :=
  Z.lxor (Z.lxor (Z.land x y) (Z.land x z)) (Z.land y z).

(** Round function and constant of round [t], 0 <= t < 80. *)
Definition f_t (t : nat) : Z -> Z -> Z -> Z :=
  if Nat.ltb t 20 then Ch
  else if Nat.ltb t 40 then Parity
  else if Nat.ltb t 60 then Maj
  else Parity.

Definition K_t (t : nat) : Z :=
  if Nat.ltb t 20 then 0x5a827999
  else if Nat.ltb t 40 then 0x6ed9eba1
  else if Nat.ltb t 60 then 0x8f1bbcdc
  else 0xca62c1d6.

Record state : Type := mkState { ha : Z; hb : Z; hc : Z; hd : Z; he : Z }.

Definition H0 : state :=
  mkState 0x67452301 0xefcdab89 0x98badcfe 0x10325476 0xc3d2e1f0.

(** Padding: the byte 0x80, zero bytes up to 56 modulo 64, then the bit
    length of the message as a 64-bit big-endian integer. *)
Fixpoint be_bytes (n : nat) (x : Z) : list Z :=
  match n with
  | O => []
  | S n' => (Z.shiftr x (8 * Z.of_nat n')) mod 256 :: be_bytes n' x
  end.

Definition pad (msg : list Z) : list Z :=
  let l := Z.of_nat (length msg) in
  msg ++ [0x80] ++ repeat 0 (Z.to_nat ((55 - l) mod 64)) ++ be_bytes 8 (8 * l).

Definition be_word (bs : list Z) : Z :=
  fold_left (fun acc b => acc * 256 + b) bs 0.

(** Split into groups of [n] elements; [fuel] bounds the number of groups. *)
Fixpoint chunks {A} (fuel n : nat) (l : list A) : list (list A) :=
  match fuel with
  | O => []
  | S fuel' =>
      match l with
      | [] => []
      | _ => firstn n l :: chunks fuel' n (skipn n l)
      end
  end.

Definition words_of_block (blk : list Z) : list Z :=
  map be_word (chunks 16 4 blk).

(** One round: [ws] is the window W[t..t+15] of the message schedule. *)
Definition round (t : nat) (sw : state * list Z) : state * list Z :=
  let '(s, ws) := sw in
  let wt := nth 0 ws 0 in
  let tmp :=
    add32 (add32 (add32 (add32 (rotl 5 (ha s)) (f_t t (hb s) (hc s) (hd s)))
                        (he s)) (K_t t)) wt in
  let wnext :=
    rotl 1 (Z.lxor (Z.lxor (Z.lxor (nth 13 ws 0) (nth 8 ws 0)) (nth 2 ws 0))
                   (nth 0 ws 0)) in
  (mkState tmp (ha s) (rotl 30 (hb s)) (hc s) (hd s), tl ws ++ [wnext]).

Definition process_block (h : state) (blk : list Z) : state :=
  let '(s, _) := fold_left (fun sw t => round t sw) (seq 0 80)
                           (h, words_of_block blk) in
  mkState (add32 (ha h) (ha s)) (add32 (hb h) (hb s)) (add32 (hc h) (hc s))
          (add32 (hd h) (hd s)) (add32 (he h) (he s)).

Definition digest_of_state (h : state) : list Z :=
  be_bytes 4 (ha h) ++ be_bytes 4 (hb h) ++ be_bytes 4 (hc h)
    ++ be_bytes 4 (hd h) ++ be_bytes 4 (he h).

(** The digest of a message given as a list of byte values. *)
Definition sha1_bytes (msg : list Z) : list Z :=
  let p := pad msg in
  digest_of_state (fold_left process_block (chunks (length p) 64 p) H0).

End SHA1.

(** [ord] of every character of a byte string. *)
Definition ords (s : string) : list Z :=
  map (fun c => Z.of_N (N_of_ascii c)) (list_ascii_of_string s).

(** [h = hashlib.sha1 (); h.update (a); h.update (b); h.digest ()], the
    digest given as the list of [ord (b)] of its 20 characters. *)
Definition sha1_digest (a b : string) : list Z :=
  SHA1.sha1_bytes (ords (a ++ b)%string).


(** [str (salt)] for a Python integer: its decimal representation. *)
Definition str (z : Z) : string := NilZero.string_of_int (Z.to_int z).

(** [xrange (k)]: 0, 1, ..., k-1; empty when [k <= 0]. *)
Definition xrange (k : Z) : list Z := map Z.of_nat (seq 0 (Z.to_nat k)).

(** A [for] loop whose body may raise: the state is threaded through the
    elements in order and the first exception ends the loop. *)
Fixpoint for_each {A S} (body : S -> A -> result S) (l : list A) (s : S)
  : result S :=
  match l with
  | [] => ok s
  | a :: rest => s' <- body s a ;; for_each body rest s'
  end.

(** ** makeHashFunc *)

(** Body of [for b in digest]: the state is [(v, scale)]. *)
Definition fold_byte (m : Z) (st : Z * Z) (b : Z) : result (Z * Z) :=
  let '(v, scale) := st in
  if m =? 0 then raise ZeroDivisionError
  else ok ((v + b * scale) mod m, scale * 8).

Definition makeHashFunc (m salt : Z) : string -> result Z :=
  let salt := str salt in
  fun value =>
    let digest := sha1_digest salt value in
    st <- for_each (fold_byte m) digest (0, 1) ;;
    ok (fst st).

(** ** numpy uint32 arrays *)

Definition uint32 (x : Z) : Z := x mod 2 ^ 32.

Fixpoint update {A} (l : list A) (i : nat) (x : A) : list A :=
  match l, i with
  | [], _ => []
  | _ :: t, O => x :: t
  | h :: t, S i' => h :: update t i' x
  end.

(** Position of index [i] in an array of [len] elements: negative indices
    count from the end, anything else out of range raises [IndexError]. *)
Definition position (len : nat) (i : Z) : result nat :=
  let n := Z.of_nat len in
  if (0 <=? i) && (i <? n) then ok (Z.to_nat i)
  else if (- n <=? i) && (i <? 0) then ok (Z.to_nat (i + n))
  else raise IndexError.

Definition getitem (a : list Z) (i : Z) : result Z :=
  p <- position (length a) i ;; ok (nth p a 0).

Definition setitem (a : list Z) (i : Z) (x : Z) : result (list Z) :=
  p <- position (length a) i ;; ok (update a p (uint32 x)).

(** ** class BloomFilter *)

Module BloomFilter.

Record t : Type := mk {
  m : Z;
  k : Z;
  bits : list Z;
  n : Z;
  funcs : list (string -> result Z)
}.

Definition __init__ (m k : Z) : result t :=
  if negb (m >? 0) then raise AssertionError
  else if negb (k >? 0) then raise AssertionError
  else if negb (m mod 32 =? 0) then raise ValueError
  else ok {| m := m;
             k := k;
             bits := repeat 0 (Z.to_nat (m / 32));
             n := 0;
             funcs := map (makeHashFunc m) (xrange k) |}.

(** Body of the loop of [add]: [self.bits[dword] |= (1 << bit)]. *)
Definition set_bit (item : string) (bits : list Z)
    (func : string -> result Z) : result (list Z) :=
  n <- func item ;;
  let dword := n / 32 in
  let bit := n mod 32 in
  w <- getitem bits dword ;;
  setitem bits dword (Z.lor w (Z.shiftl 1 bit)).

Definition add (self : t) (item : string) : result t :=
  bits' <- for_each (set_bit item) (funcs self) (bits self) ;;
  ok {| m := m self; k := k self; bits := bits';
        n := n self + 1; funcs := funcs self |}.

(** The loop of [maycontain] returns from inside its body. *)
Fixpoint test_bits (item : string) (bits : list Z)
    (fs : list (string -> result Z)) : result bool :=
  match fs with
  | [] => ok true
  | func :: rest =>
      n <- func item ;;
      let dword := n / 32 in
      let bit := n mod 32 in
      w <- getitem bits dword ;;
      if Z.land w (Z.shiftl 1 bit) =? 0 then ok false
      else test_bits item bits rest
  end.

Definition maycontain (self : t) (item : string) : result bool :=
  test_bits item (bits self) (funcs self).

(** [self.bits.fill (0)] *)
Definition clear (self : t) : t :=
  {| m := m self; k := k self; bits := map (fun _ => 0) (bits self);
     n := n self; funcs := funcs self |}.

Definition __getstate__ (self : t) : Z * Z * list Z :=
  (k self, n self, bits self).

Definition __setstate__ (self : t) (state : Z * Z * list Z) : t :=
  let '(k', n', bits') := state in
  let m' := Z.of_nat (length bits') * 32 in
  {| m := m'; k := k'; bits := bits'; n := n';
     funcs := map (makeHashFunc m') (xrange k') |}.

End BloomFilter.

(** ** optimalBloom: the integer stage

    [N.log], [N.ceil] and the float64 products and quotients of
    [optimalBloom] are not embedded.  What follows them is integer code:
    [mc] stands for [int (N.ceil (m))] and [kt m] for [int (k)], the
    truncation of [ln2 * m / nexpected], which depends on the rounded [m]. *)
Definition optimalBloom_ints (mc : Z) (kt : Z -> Z) : result BloomFilter.t :=
  let m := Z.land (mc + 31) (Z.lnot 0x1F) in
  let k := Z.max (kt m) 1 in
  BloomFilter.__init__ m k.

(** ** Sequences of operations *)

Inductive op : Type :=
| Add (item : string)
| MayContain (item : string)
| Clear.

Definition step (F : BloomFilter.t) (o : op) : result BloomFilter.t :=
  match o with
  | Add item => BloomFilter.add F item
  | MayContain item => _ <- BloomFilter.maycontain F item ;; ok F
  | Clear => ok (BloomFilter.clear F)
  end.

Definition run (ops : list op) (F : BloomFilter.t) : result BloomFilter.t :=
  for_each step ops F.

Definition is_clear (o : op) : bool :=
  match o with Clear => true | _ => false end.

Definition no_clear (ops : list op) : bool :=
  forallb (fun o => negb (is_clear o)) ops.

(** The filters a program can hold: built by the constructor, then changed
    by [add] and [clear]. *)
Inductive reachable : BloomFilter.t -> Prop :=
| reach_init m k F :
    BloomFilter.__init__ m k = ok F -> reachable F
| reach_add F item F' :
    reachable F -> BloomFilter.add F item = ok F' -> reachable F'
| reach_clear F :
    reachable F -> reachable (BloomFilter.clear F).

(** Bit [i] of the bit array: bit [i mod 32] of word [i // 32]. *)
Definition bit_at (bits : list Z) (i : Z) : bool :=
  Z.testbit (nth (Z.to_nat (i / 32)) bits 0) (i mod 32).

(** The conditions the specification calls InvalidParameter. *)
Definition InvalidParameter (e : exn) : Prop :=
  e = AssertionError \/ e = ValueError.

(** The fold of the digest as the specification words it: [v] starts at 0
    and [s] at 1; for each byte [b], [v = (v + b*s) mod m], then
    [s = s * 8]. *)
Fixpoint digest_fold (m v s : Z) (digest : list Z) : Z :=
  match digest with
  | [] => v
  | b :: rest => digest_fold m ((v + b * s) mod m) (s * 8) rest
  end.

(** The positional sum the fold reduces: byte [i] weighs [8^i]. *)
Fixpoint weighted (digest : list Z) : Z :=
  match digest with
  | [] => 0
  | b :: rest => b + 8 * weighted rest
  end.

(** The representation invariant of a filter. *)
Record wf (F : BloomFilter.t) : Prop := {
  wf_m_pos : 0 < BloomFilter.m F;
  wf_m_aligned : BloomFilter.m F mod 32 = 0;
  wf_k_pos : 0 < BloomFilter.k F;
  wf_n_nonneg : 0 <= BloomFilter.n F;
  wf_size : Z.of_nat (length (BloomFilter.bits F)) * 32 = BloomFilter.m F;
  wf_words : Forall (fun w => 0 <= w < 2 ^ 32) (BloomFilter.bits F);
  wf_funcs : BloomFilter.funcs F =
             map (makeHashFunc (BloomFilter.m F)) (xrange (BloomFilter.k F))
}.

(** Every function of [fs] returns, for [item], an index below [32 * len]. *)
Definition hashes_in_range (len : nat) (item : string)
    (fs : list (string -> result Z)) : Prop :=
  Forall (fun f => exists i, f item = ok i /\ 0 <= i < 32 * Z.of_nat len) fs.

(** What the loop of [add] does to the array: the length is kept, no bit
    is reset, and the bit indexed by every function of [fs] is set. *)
Record add_loop_post (item : string) (fs : list (string -> result Z))
    (bits bits' : list Z) : Prop := {
  alp_length : length bits' = length bits;
  alp_keeps : forall j, bit_at bits j = true -> bit_at bits' j = true;
  alp_sets :
    Forall (fun f => exists i, f item = ok i /\ bit_at bits' i = true) fs;
  alp_words : Forall (fun w => 0 <= w < 2 ^ 32) bits ->
              Forall (fun w => 0 <= w < 2 ^ 32) bits'
}.

(** ** optimalBloom after the ceiling

    As [optimalBloom_ints], with the conversion [int (k)] allowed to raise:
    [int_k m] is the outcome of [int (ln2 * m / nexpected)], which raises
    when the quotient is not finite. *)
Definition optimalBloom_from (mc : Z) (int_k : Z -> result Z)
  : result BloomFilter.t :=
  let m := Z.land (mc + 31) (Z.lnot 0x1F) in
  k <- int_k m ;;
  let k := Z.max k 1 in
  BloomFilter.__init__ m k.

(** Number of [add] calls in a sequence of operations. *)
Fixpoint count_adds (ops : list op) : Z :=
  match ops with
  | [] => 0
  | Add _ :: rest => 1 + count_adds rest
  | _ :: rest => count_adds rest
  end.

(** Whether some function of [fs] maps [item] to the bit index [j]. *)
Definition hits (fs : list (string -> result Z)) (item : string) (j : Z)
  : bool :=
  existsb (fun f => match f item with
                    | inr i => i =? j
                    | inl _ => false
                    end) fs.

(** ** float64 arithmetic *)

Definition float64 : Type := spec_float.

Definition fmul : float64 -> float64 -> float64 := SFmul 53 1024.
Definition fdiv : float64 -> float64 -> float64 := SFdiv 53 1024.
Definition fsub : float64 -> float64 -> float64 := SFsub 53 1024.
Definition flt : float64 -> float64 -> bool := SFltb.
Definition fle : float64 -> float64 -> bool := SFleb.
Definition feq : float64 -> float64 -> bool := SFeqb.

Definition f_zero : float64 := S754_zero false.
Definition f_one : float64 := S754_finite false 4503599627370496 (-52).
Definition f_two : float64 := S754_finite false 4503599627370496 (-51).

(** [0 < x < 1], as Python compares floats (false for NaN). *)
Definition in_unit (x : float64) : bool := flt f_zero x && flt x f_one.

(** A conversion to float whose result does not fit raises. *)
Definition finite_or_overflow (x : float64) : result float64 :=
  match x with
  | S754_infinity _ => raise OverflowError
  | _ => ok x
  end.

(** A Python integer as an operand of float64 arithmetic: the nearest
    float, [OverflowError] beyond the largest one. *)
Definition float_of_int (z : Z) : result float64 :=
  finite_or_overflow (binary_normalize 53 1024 z 0 false).

(** The integer [z] as an unrounded operand. *)
Definition exact (z : Z) : float64 :=
  match z with
  | Z0 => S754_zero false
  | Zpos p => S754_finite false p 0
  | Zneg p => S754_finite true p 0
  end.

(** [a / b] of two Python integers under [from __future__ import division]:
    the float nearest to the quotient. *)
Definition truediv (a b : Z) : result float64 :=
  if b =? 0 then raise ZeroDivisionError
  else finite_or_overflow (fdiv (exact a) (exact b)).

(** [int (N.ceil (x))]: [N.ceil] of a float is an integral float (or NaN,
    or an infinity), which [int] converts exactly or refuses. *)
Definition int_of_ceil (x : float64) : result Z :=
  match x with
  | S754_nan => raise ValueError
  | S754_infinity _ => raise OverflowError
  | S754_zero _ => ok 0
  | S754_finite s m e =>
      let v := cond_Zopp s (Zpos m) in
      ok (if 0 <=? e then v * 2 ^ e else - ((- v) / 2 ^ (- e)))
  end.

(** [int (x)]: truncation towards zero. *)
Definition int_of_float (x : float64) : result Z :=
  match x with
  | S754_nan => raise ValueError
  | S754_infinity _ => raise OverflowError
  | S754_zero _ => ok 0
  | S754_finite s m e =>
      let v := cond_Zopp s (Zpos m) in
      ok (if 0 <=? e then v * 2 ^ e else Z.quot v (2 ^ (- e)))
  end.

(** ** fprate and optimalBloom *)

Section Numpy.

(** [N.log], [N.exp] and [x ** k] for a float64 [x] and a Python integer
    [k]. *)
Variable N_log : float64 -> float64.
Variable N_exp : float64 -> float64.
Variable N_power : float64 -> Z -> float64.

(** [BloomFilter.fprate] *)
Definition fprate (self : BloomFilter.t) : result float64 :=
  x <- truediv (- BloomFilter.k self * BloomFilter.n self)
               (BloomFilter.m self) ;;
  let r := fsub f_one (N_exp x) in
  let r := N_power r (BloomFilter.k self) in
  ok r.

Definition optimalBloom (fprate : float64) (nexpected : Z)
  : result BloomFilter.t :=
  let ln2 := N_log f_two in
  a <- float_of_int (- nexpected) ;;
  let m := fdiv (fmul a (N_log fprate)) (N_power ln2 2) in
  m <- int_of_ceil m ;;
  let m := Z.land (m + 31) (Z.lnot 0x1F) in
  mf <- float_of_int m ;;
  nf <- float_of_int nexpected ;;
  let k := fdiv (fmul ln2 mf) nf in
  k <- int_of_float k ;;
  let k := Z.max k 1 in
  BloomFilter.__init__ m k.

End Numpy.

(** ** What is assumed of the library functions *)

(** [N.log (2)] and its square, as float64 values:
    0x1.62e42fefa39efp-1 and 0x1.ebfbdff82c58ep-2. *)
Definition ln2 : float64 := S754_finite false 6243314768165359 (-53).
Definition ln2_squared : float64 := S754_finite false 8655072057804174 (-54).

(** The logarithm: its value at 2, its sign on either side of 1, and its
    exceptional values (minus infinity at zero, NaN below zero and at NaN). *)
Record numpy_log (N_log : float64 -> float64) : Prop := {
  log_two : N_log f_two = ln2;
  log_one : forall p, feq p f_one = true -> N_log p = f_zero;
  log_below_one : forall p,
    flt f_zero p = true -> flt p f_one = true -> flt (N_log p) f_zero = true;
  log_above_one : forall p,
    flt f_one p = true -> fle f_zero (N_log p) = true;
  log_nonpositive : forall p,
    flt f_zero p = false ->
    N_log p = S754_nan \/ N_log p = S754_infinity true
}.

(** The exponential of a float that is at most 0: a float between 0 and 1,
    which is 0 from -1000 downwards (the result underflows). *)
Record numpy_exp (N_exp : float64 -> float64) : Prop := {
  exp_unit : forall x,
    fle x f_zero = true ->
    valid_binary 53 1024 (N_exp x) = true /\
    fle f_zero (N_exp x) = true /\ fle (N_exp x) f_one = true;
  exp_underflow : forall x,
    fle x (S754_finite true 8796093022208000 (-43)) = true ->
    N_exp x = f_zero
}.

(** The power: the square of [ln2], powers of 1, and powers of a float
    between 0 and 1 with a positive exponent. *)
Record numpy_power (N_power : float64 -> Z -> float64) : Prop := {
  power_ln2 : N_power ln2 2 = ln2_squared;
  power_one : forall k, N_power f_one k = f_one;
  power_unit : forall r k,
    0 < k -> fle f_zero r = true -> fle r f_one = true ->
    fle f_zero (N_power r k) = true /\ fle (N_power r k) f_one = true
}.

(** Functions that meet the assumptions, to show that they can be met;
    they are not the library's. *)
Definition model_log (p : float64) : float64 :=
  if feq p f_two then ln2
  else if flt f_one p then f_one
  else if feq p f_one then f_zero
  else if flt f_zero p then S754_finite true 4503599627370496 (-52)
  else S754_nan.

Definition model_exp (x : float64) : float64 :=
  if fle x (S754_finite true 8796093022208000 (-43)) then f_zero
  else if feq x f_zero then f_one
  else S754_finite false 4503599627370496 (-53).

Definition model_power (r : float64) (k : Z) : float64 :=
  if feq r f_one then f_one
  else if feq r ln2 && (k =? 2) then ln2_squared
  else f_zero.

(** * Proofs *)

(** ** SHA-1 digests *)

Lemma be_bytes_length n x : length (SHA1.be_bytes n x) = n.
Proof. induction n as [|n IH]; simpl; [reflexivity | now rewrite IH]. Qed.

Lemma be_bytes_range n x : Forall (fun b => 0 <= b < 256) (SHA1.be_bytes n x).
Proof.
  induction n as [|n IH]; simpl; constructor; auto.
  apply Z.mod_pos_bound; lia.
Qed.

Lemma sha1_bytes_length msg : length (SHA1.sha1_bytes msg) = 20%nat.
Proof.
  unfold SHA1.sha1_bytes, SHA1.digest_of_state.
  rewrite !length_app, !be_bytes_length. reflexivity.
Qed.

Lemma sha1_bytes_range msg :
  Forall (fun b => 0 <= b < 256) (SHA1.sha1_bytes msg).
Proof.
  unfold SHA1.sha1_bytes, SHA1.digest_of_state.
  repeat (apply Forall_app; split); apply be_bytes_range.
Qed.

Lemma sha1_digest_length a b : length (sha1_digest a b) = 20%nat.
Proof. apply sha1_bytes_length. Qed.

Example sha1_abc :
  sha1_digest "" "abc" =
  [0xa9; 0x99; 0x3e; 0x36; 0x47; 0x06; 0x81; 0x6a; 0xba; 0x3e;
   0x25; 0x71; 0x78; 0x50; 0xc2; 0x6c; 0x9c; 0xd0; 0xd8; 0x9d].
Proof. vm_compute. reflexivity. Qed.

Example sha1_two_blocks :
  sha1_digest "abcdbcdecdefdefgefghfghighij" "hijkijkljklmklmnlmnomnopnopq" =
  [0x84; 0x98; 0x3e; 0x44; 0x1c; 0x3b; 0xd2; 0x6e; 0xba; 0xae;
   0x4a; 0xa1; 0xf9; 0x51; 0x29; 0xe5; 0xe5; 0x46; 0x70; 0xf1].
Proof. vm_compute. reflexivity. Qed.

(** ** makeHashFunc *)

Lemma bind_ok {A B} (c : result A) (f : A -> result B) b :
  bind c f = ok b -> exists a, c = ok a /\ f a = ok b.
Proof. destruct c as [e|a]; simpl; [discriminate | eauto]. Qed.

Lemma for_each_fold_byte m digest v s :
  m <> 0 ->
  for_each (fold_byte m) digest (v, s) =
  ok (digest_fold m v s digest, s * 8 ^ Z.of_nat (length digest)).
Proof.
  intros Hm. revert v s.
  induction digest as [|b rest IH]; intros v s.
  - simpl. unfold ok. f_equal. f_equal. lia.
  - cbn [for_each fold_byte digest_fold length].
    apply Z.eqb_neq in Hm. rewrite Hm. cbn [bind ok].
    rewrite IH. unfold ok. f_equal. f_equal.
    rewrite Nat2Z.inj_succ, Z.pow_succ_r by lia. ring.
Qed.

Lemma makeHashFunc_eq m salt value :
  m <> 0 ->
  makeHashFunc m salt value =
  ok (digest_fold m 0 1 (sha1_digest (str salt) value)).
Proof.
  intros Hm. unfold makeHashFunc.
  rewrite for_each_fold_byte by assumption. reflexivity.
Qed.

Lemma makeHashFunc_zero_modulus salt value :
  makeHashFunc 0 salt value = raise ZeroDivisionError.
Proof.
  unfold makeHashFunc.
  pose proof (sha1_digest_length (str salt) value) as Hlen.
  destruct (sha1_digest (str salt) value) as [|b rest]; [discriminate|].
  reflexivity.
Qed.

Lemma digest_fold_range m v s digest :
  0 < m -> 0 <= v < m -> 0 <= digest_fold m v s digest < m.
Proof.
  intros Hm. revert v s.
  induction digest as [|b rest IH]; intros v s Hv; simpl.
  - assumption.
  - apply IH. apply Z.mod_pos_bound. assumption.
Qed.

Lemma digest_fold_weighted m v s digest :
  m <> 0 ->
  (digest_fold m v s digest) mod m = (v + s * weighted digest) mod m.
Proof.
  intros Hm. revert v s.
  induction digest as [|b rest IH]; intros v s; cbn [digest_fold weighted].
  - now rewrite Z.mul_0_r, Z.add_0_r.
  - rewrite IH, Zplus_mod_idemp_l.
    replace (v + b * s + s * 8 * weighted rest)
      with (v + s * (b + 8 * weighted rest)) by ring.
    reflexivity.
Qed.

Lemma makeHashFunc_range m salt value :
  0 < m -> exists v, makeHashFunc m salt value = ok v /\ 0 <= v < m.
Proof.
  intros Hm. rewrite makeHashFunc_eq by lia.
  eexists; split; [reflexivity|].
  apply digest_fold_range; lia.
Qed.

(** The hash value is the positional sum of the digest bytes, byte [i]
    weighing [8^i], reduced modulo [m]. *)
Lemma makeHashFunc_closed_form m salt value :
  0 < m ->
  makeHashFunc m salt value =
  ok (weighted (sha1_digest (str salt) value) mod m).
Proof.
  intros Hm. rewrite makeHashFunc_eq by lia. unfold ok. f_equal.
  rewrite <- (Z.mod_small (digest_fold _ _ _ _) m)
    by (apply digest_fold_range; lia).
  rewrite digest_fold_weighted by lia.
  now rewrite Z.add_0_l, Z.mul_1_l.
Qed.

(** C3: for every [m > 0], salt and input, the function [makeHashFunc m salt]
    returns, without raising, the fold of the 20-byte SHA-1 digest of the
    salt string followed by the input ([v] from 0, [scale] from 1,
    [v = (v + b*scale) mod m] then [scale = scale*8] for each byte in order),
    and that value lies in [0, m). *)
Theorem makeHashFunc_spec (m salt : Z) (value : string) :
  0 < m ->
  let digest := SHA1.sha1_bytes (ords (str salt ++ value)%string) in
  length digest = 20%nat /\
  makeHashFunc m salt value = ok (digest_fold m 0 1 digest) /\
  0 <= digest_fold m 0 1 digest < m.
Proof.
  intros Hm digest. split; [apply sha1_bytes_length|]. split.
  - apply makeHashFunc_eq. lia.
  - apply digest_fold_range; lia.
Qed.

Lemma makeHashFunc_spec_witness :
  makeHashFunc 32 0 "abc" = ok 16 /\
  (let digest := SHA1.sha1_bytes (ords (str 0 ++ "abc")%string) in
   length digest = 20%nat /\
   makeHashFunc 32 0 "abc" = ok (digest_fold 32 0 1 digest) /\
   0 <= digest_fold 32 0 1 digest < 32).
Proof.
  split; [vm_compute; reflexivity|].
  apply (makeHashFunc_spec 32 0 "abc"). lia.
Defined.

(** ** Arrays *)

Lemma update_length {A} (l : list A) i x : length (update l i x) = length l.
Proof.
  revert i; induction l as [|h t IH]; intros [|i]; simpl; auto.
Qed.

Lemma nth_update_eq {A} (l : list A) i x d :
  (i < length l)%nat -> nth i (update l i x) d = x.
Proof.
  revert i; induction l as [|h t IH]; intros [|i] Hi; simpl in *;
    try lia; auto.
  apply IH; lia.
Qed.

Lemma nth_update_ne {A} (l : list A) i j x d :
  i <> j -> nth j (update l i x) d = nth j l d.
Proof.
  revert i j; induction l as [|h t IH]; intros [|i] [|j] Hij; simpl;
    try congruence; auto.
Qed.

Lemma Forall_update {A} (P : A -> Prop) (l : list A) i x :
  Forall P l -> P x -> Forall P (update l i x).
Proof.
  intros Hl Hx. revert i.
  induction Hl as [|h t Hh Ht IH]; intros [|i]; simpl; auto.
Qed.

Lemma position_in_range len i :
  0 <= i < Z.of_nat len -> position len i = ok (Z.to_nat i).
Proof.
  intros Hi. unfold position.
  destruct (Z.leb_spec 0 i); try lia.
  destruct (Z.ltb_spec i (Z.of_nat len)); try lia.
  reflexivity.
Qed.

Lemma getitem_in_range a i :
  0 <= i < Z.of_nat (length a) -> getitem a i = ok (nth (Z.to_nat i) a 0).
Proof.
  intros Hi. unfold getitem. now rewrite position_in_range.
Qed.

Lemma setitem_in_range a i x :
  0 <= i < Z.of_nat (length a) ->
  setitem a i x = ok (update a (Z.to_nat i) (uint32 x)).
Proof.
  intros Hi. unfold setitem. now rewrite position_in_range.
Qed.

Lemma uint32_range x : 0 <= uint32 x < 2 ^ 32.
Proof. apply Z.mod_pos_bound. lia. Qed.

Lemma uint32_testbit x j : 0 <= j < 32 -> Z.testbit (uint32 x) j = Z.testbit x j.
Proof. intros Hj. unfold uint32. apply Z.mod_pow2_bits_low. lia. Qed.

Lemma testbit_one_shifted bit j :
  0 <= bit -> 0 <= j -> Z.testbit (Z.shiftl 1 bit) j = (j =? bit).
Proof.
  intros Hb Hj. rewrite Z.shiftl_spec by assumption.
  destruct (Z.eqb_spec j bit) as [->|Hne].
  - now rewrite Z.sub_diag.
  - destruct (Z.lt_trichotomy j bit) as [Hlt|[Heq|Hgt]]; try lia.
    + apply Z.testbit_neg_r. lia.
    + replace (j - bit) with (Z.succ (j - bit - 1)) by lia.
      change 1 with (2 * 0 + 1).
      rewrite Z.testbit_odd_succ by lia. apply Z.testbit_0_l.
Qed.

Lemma land_one_shifted w bit :
  0 <= bit -> (Z.land w (Z.shiftl 1 bit) =? 0) = negb (Z.testbit w bit).
Proof.
  intros Hb. destruct (Z.testbit w bit) eqn:Hw; simpl.
  - apply Z.eqb_neq. intros H0.
    assert (Z.testbit (Z.land w (Z.shiftl 1 bit)) bit = true) as Ht.
    { rewrite Z.land_spec, Hw, testbit_one_shifted, Z.eqb_refl by lia.
      reflexivity. }
    rewrite H0, Z.testbit_0_l in Ht. discriminate.
  - apply Z.eqb_eq. apply Z.bits_inj'. intros j Hj.
    rewrite Z.land_spec, Z.testbit_0_l, testbit_one_shifted by lia.
    destruct (Z.eqb_spec j bit) as [->|_].
    + now rewrite Hw.
    + apply andb_false_r.
Qed.

(** ** The loops of add and maycontain *)

Lemma word_index_in_range len i :
  0 <= i < 32 * Z.of_nat len -> 0 <= i / 32 < Z.of_nat len.
Proof.
  intros Hi. split.
  - apply Z.div_pos; lia.
  - apply Z.div_lt_upper_bound; lia.
Qed.

Lemma set_bit_eq item bits func i :
  func item = ok i ->
  0 <= i < 32 * Z.of_nat (length bits) ->
  BloomFilter.set_bit item bits func =
  ok (update bits (Z.to_nat (i / 32))
        (uint32 (Z.lor (nth (Z.to_nat (i / 32)) bits 0)
                       (Z.shiftl 1 (i mod 32))))).
Proof.
  intros Hf Hi. unfold BloomFilter.set_bit. rewrite Hf. cbn [bind ok].
  pose proof (word_index_in_range _ _ Hi) as Hw.
  rewrite getitem_in_range by assumption. cbn [bind ok].
  now rewrite setitem_in_range.
Qed.

Lemma bit_at_set_bit bits i j :
  0 <= i < 32 * Z.of_nat (length bits) ->
  bit_at (update bits (Z.to_nat (i / 32))
            (uint32 (Z.lor (nth (Z.to_nat (i / 32)) bits 0)
                           (Z.shiftl 1 (i mod 32))))) j =
  bit_at bits j
  || (Nat.eqb (Z.to_nat (j / 32)) (Z.to_nat (i / 32)) && (j mod 32 =? i mod 32)).
Proof.
  intros Hi. unfold bit_at.
  pose proof (word_index_in_range _ _ Hi) as Hw.
  pose proof (Z.mod_pos_bound i 32 ltac:(lia)) as Hbi.
  pose proof (Z.mod_pos_bound j 32 ltac:(lia)) as Hbj.
  destruct (Nat.eqb_spec (Z.to_nat (j / 32)) (Z.to_nat (i / 32))) as [He|Hne].
  - rewrite He, nth_update_eq by lia.
    rewrite uint32_testbit, Z.lor_spec, testbit_one_shifted by lia.
    reflexivity.
  - rewrite nth_update_ne by congruence. now rewrite orb_false_r.
Qed.

Lemma set_bit_sets bits i :
  0 <= i < 32 * Z.of_nat (length bits) ->
  bit_at (update bits (Z.to_nat (i / 32))
            (uint32 (Z.lor (nth (Z.to_nat (i / 32)) bits 0)
                           (Z.shiftl 1 (i mod 32))))) i = true.
Proof.
  intros Hi. rewrite bit_at_set_bit by assumption.
  now rewrite Nat.eqb_refl, Z.eqb_refl, orb_true_r.
Qed.

Lemma set_bit_keeps bits i j :
  0 <= i < 32 * Z.of_nat (length bits) ->
  bit_at bits j = true ->
  bit_at (update bits (Z.to_nat (i / 32))
            (uint32 (Z.lor (nth (Z.to_nat (i / 32)) bits 0)
                           (Z.shiftl 1 (i mod 32))))) j = true.
Proof.
  intros Hi Hj. rewrite bit_at_set_bit by assumption. now rewrite Hj.
Qed.

Lemma add_loop_spec item fs : forall bits,
  hashes_in_range (length bits) item fs ->
  exists bits',
    for_each (BloomFilter.set_bit item) fs bits = ok bits' /\
    add_loop_post item fs bits bits'.
Proof.
  induction fs as [|f rest IH]; intros bits Hr.
  - exists bits. split; [reflexivity|]. split; auto.
  - apply Forall_cons_iff in Hr. destruct Hr as [(i & Hf & Hi) Hrest].
    cbn [for_each]. rewrite (set_bit_eq _ _ _ _ Hf Hi). cbn [bind ok].
    set (bits1 := update bits _ _).
    assert (length bits1 = length bits) as Hlen by apply update_length.
    destruct (IH bits1) as (bits' & Hrun & Hpost).
    { unfold hashes_in_range. rewrite Hlen. exact Hrest. }
    exists bits'. split; [exact Hrun|].
    destruct Hpost as [Hl Hk Hs Hw]. split.
    + congruence.
    + intros j Hj. apply Hk. now apply set_bit_keeps.
    + constructor; [|exact Hs].
      exists i. split; [exact Hf|]. apply Hk. now apply set_bit_sets.
    + intros Hb. apply Hw. apply Forall_update; [exact Hb|apply uint32_range].
Qed.

(** The loop of [maycontain] answers whether every indexed bit is set. *)
Lemma test_bits_spec item bits fs :
  hashes_in_range (length bits) item fs ->
  BloomFilter.test_bits item bits fs =
  ok (forallb (fun f => match f item with
                        | inr i => bit_at bits i
                        | inl _ => false
                        end) fs).
Proof.
  induction fs as [|f rest IH]; intros Hr; [reflexivity|].
  apply Forall_cons_iff in Hr. destruct Hr as [(i & Hf & Hi) Hrest].
  cbn [BloomFilter.test_bits forallb]. rewrite Hf. cbn [bind ok].
  rewrite getitem_in_range by (now apply word_index_in_range). cbn [bind ok].
  rewrite land_one_shifted by (apply Z.mod_pos_bound; lia).
  fold (bit_at bits i).
  destruct (bit_at bits i); cbn [negb andb]; [now apply IH | reflexivity].
Qed.

Lemma test_bits_true item bits fs :
  hashes_in_range (length bits) item fs ->
  Forall (fun f => exists i, f item = ok i /\ bit_at bits i = true) fs ->
  BloomFilter.test_bits item bits fs = ok true.
Proof.
  intros Hr Hs. rewrite test_bits_spec by assumption.
  unfold ok. f_equal. apply forallb_forall. intros f Hin.
  rewrite Forall_forall in Hs. destruct (Hs f Hin) as (i & Hf & Hb).
  now rewrite Hf.
Qed.

(** ** The representation invariant *)

Lemma xrange_length k : length (xrange k) = Z.to_nat k.
Proof. unfold xrange. now rewrite length_map, length_seq. Qed.

Lemma xrange_nth k i :
  0 <= i < k -> nth_error (xrange k) (Z.to_nat i) = Some i.
Proof.
  intros Hi. unfold xrange.
  rewrite nth_error_map, nth_error_seq.
  destruct (Nat.ltb_spec (Z.to_nat i) (Z.to_nat k)); [|lia].
  simpl. f_equal. lia.
Qed.

Lemma wf_hashes F item :
  wf F ->
  hashes_in_range (length (BloomFilter.bits F)) item (BloomFilter.funcs F).
Proof.
  intros HF. unfold hashes_in_range.
  rewrite (wf_funcs F HF). apply Forall_map, Forall_forall. intros salt _.
  destruct (makeHashFunc_range (BloomFilter.m F) salt item (wf_m_pos F HF))
    as (v & Hv & Hrange).
  exists v. split; [exact Hv|]. pose proof (wf_size F HF). lia.
Qed.

Lemma init_eq m k :
  0 < m -> 0 < k -> m mod 32 = 0 ->
  BloomFilter.__init__ m k =
  ok (BloomFilter.mk m k (repeat 0 (Z.to_nat (m / 32))) 0
        (map (makeHashFunc m) (xrange k))).
Proof.
  intros Hm Hk Ha. unfold BloomFilter.__init__.
  destruct (Z.gtb_spec m 0); [|lia]. destruct (Z.gtb_spec k 0); [|lia].
  rewrite Ha. reflexivity.
Qed.

Lemma init_inv m k F :
  BloomFilter.__init__ m k = ok F ->
  0 < m /\ 0 < k /\ m mod 32 = 0 /\
  F = BloomFilter.mk m k (repeat 0 (Z.to_nat (m / 32))) 0
        (map (makeHashFunc m) (xrange k)).
Proof.
  unfold BloomFilter.__init__.
  destruct (Z.gtb_spec m 0); [|discriminate].
  destruct (Z.gtb_spec k 0); [|discriminate].
  destruct (Z.eqb_spec (m mod 32) 0); [|discriminate].
  cbn [negb]. intros [= <-]. auto.
Qed.

Lemma init_wf m k F : BloomFilter.__init__ m k = ok F -> wf F.
Proof.
  intros H. apply init_inv in H. destruct H as (Hm & Hk & Ha & ->).
  split; cbn; try lia; try reflexivity.
  - rewrite repeat_length, Z2Nat.id by (apply Z.div_pos; lia).
    pose proof (Z.div_mod m 32 ltac:(lia)). lia.
  - apply Forall_forall. intros w Hw. apply repeat_spec in Hw. subst w. lia.
Qed.

Lemma add_total F item :
  wf F ->
  exists bits',
    BloomFilter.add F item =
    ok (BloomFilter.mk (BloomFilter.m F) (BloomFilter.k F) bits'
          (BloomFilter.n F + 1) (BloomFilter.funcs F)) /\
    add_loop_post item (BloomFilter.funcs F) (BloomFilter.bits F) bits'.
Proof.
  intros HF.
  destruct (add_loop_spec item _ _ (wf_hashes F item HF)) as (bits' & Hrun & Hp).
  exists bits'. split; [|exact Hp].
  unfold BloomFilter.add. rewrite Hrun. reflexivity.
Qed.

Lemma add_eq F item bits' :
  for_each (BloomFilter.set_bit item) (BloomFilter.funcs F) (BloomFilter.bits F)
    = ok bits' ->
  BloomFilter.add F item =
  ok (BloomFilter.mk (BloomFilter.m F) (BloomFilter.k F) bits'
        (BloomFilter.n F + 1) (BloomFilter.funcs F)).
Proof. intros H. unfold BloomFilter.add. rewrite H. reflexivity. Qed.

Lemma add_wf F item F' : wf F -> BloomFilter.add F item = ok F' -> wf F'.
Proof.
  intros HF Hadd.
  destruct (add_total F item HF) as (bits' & Heq & [Hl Hk Hs Hw]).
  rewrite Heq in Hadd. injection Hadd as <-.
  destruct HF. split; cbn; auto; try lia; try congruence.
Qed.

Lemma clear_wf F : wf F -> wf (BloomFilter.clear F).
Proof.
  intros HF. destruct HF. split; cbn; auto.
  - now rewrite length_map.
  - apply Forall_map, Forall_forall. intros; lia.
Qed.

Lemma reachable_wf F : reachable F -> wf F.
Proof.
  induction 1; eauto using init_wf, add_wf, clear_wf.
Qed.

(** ** Sequences of add and maycontain *)

Lemma maycontain_total F item :
  wf F -> exists b, BloomFilter.maycontain F item = ok b.
Proof.
  intros HF. unfold BloomFilter.maycontain.
  rewrite test_bits_spec by (now apply wf_hashes). eauto.
Qed.

Lemma step_no_clear F o :
  wf F -> is_clear o = false ->
  exists F',
    step F o = ok F' /\ wf F' /\
    BloomFilter.funcs F' = BloomFilter.funcs F /\
    forall j, bit_at (BloomFilter.bits F) j = true ->
              bit_at (BloomFilter.bits F') j = true.
Proof.
  intros HF Ho. destruct o as [item|item|]; [| |discriminate]; cbn [step].
  - destruct (add_total F item HF) as (bits' & Heq & Hp).
    eexists. split; [exact Heq|]. split; [now apply (add_wf F item)|].
    split; [reflexivity|]. exact (alp_keeps _ _ _ _ Hp).
  - destruct (maycontain_total F item HF) as (b & Hb). rewrite Hb.
    exists F. cbn. auto.
Qed.

Lemma run_no_clear ops : forall F,
  wf F -> no_clear ops = true ->
  exists F',
    run ops F = ok F' /\ wf F' /\
    BloomFilter.funcs F' = BloomFilter.funcs F /\
    forall j, bit_at (BloomFilter.bits F) j = true ->
              bit_at (BloomFilter.bits F') j = true.
Proof.
  unfold run. induction ops as [|o rest IH]; intros F HF Hnc.
  - exists F. cbn. auto.
  - cbn [no_clear forallb] in Hnc. apply andb_true_iff in Hnc.
    destruct Hnc as [Ho Hrest]. apply negb_true_iff in Ho.
    destruct (step_no_clear F o HF Ho) as (F1 & Hstep & HF1 & Hfs1 & Hmono1).
    destruct (IH F1 HF1 Hrest) as (F2 & Hrun & HF2 & Hfs2 & Hmono2).
    exists F2. cbn [for_each]. rewrite Hstep. cbn [bind ok].
    split; [exact Hrun|]. split; [exact HF2|]. split; [congruence|].
    auto.
Qed.

(** ** The claims *)

(** C1: no false negatives.  From any reachable filter, after [add (x)] and
    then any sequence of further [add] and [maycontain] calls (no [clear]),
    every call completes and [maycontain (x)] returns [True]. *)
Theorem no_false_negatives (F : BloomFilter.t) (x : string) (ops : list op) :
  reachable F ->
  no_clear ops = true ->
  exists F1 F2,
    BloomFilter.add F x = ok F1 /\
    run ops F1 = ok F2 /\
    BloomFilter.maycontain F2 x = ok true.
Proof.
  intros HR Hnc. apply reachable_wf in HR.
  destruct (add_total F x HR) as (bits' & Hadd & Hp).
  assert (wf (BloomFilter.mk (BloomFilter.m F) (BloomFilter.k F) bits'
                (BloomFilter.n F + 1) (BloomFilter.funcs F))) as HF1
    by exact (add_wf F x _ HR Hadd).
  destruct (run_no_clear ops _ HF1 Hnc) as (F2 & Hrun & HF2 & Hfs & Hmono).
  eexists; exists F2. split; [exact Hadd|]. split; [exact Hrun|].
  unfold BloomFilter.maycontain. apply test_bits_true.
  - now apply wf_hashes.
  - rewrite Hfs. cbn [BloomFilter.funcs].
    eapply Forall_impl; [|exact (alp_sets _ _ _ _ Hp)].
    intros f (i & Hf & Hb). exists i. split; [exact Hf|]. now apply Hmono.
Qed.

Lemma no_false_negatives_witness :
  exists F1 F2,
    BloomFilter.add
      (BloomFilter.mk 64 2 [0; 0] 0 (map (makeHashFunc 64) (xrange 2)))
      "abc" = ok F1 /\
    run [Add "abd"; MayContain "xyz"; Add "abc"] F1 = ok F2 /\
    BloomFilter.maycontain F2 "abc" = ok true.
Proof.
  apply (no_false_negatives
           (BloomFilter.mk 64 2 [0; 0] 0 (map (makeHashFunc 64) (xrange 2)))
           "abc" [Add "abd"; MayContain "xyz"; Add "abc"]).
  - apply (reach_init 64 2). reflexivity.
  - reflexivity.
Defined.

(** C7: monotonic bits.  Along any sequence of [add] and [maycontain] calls
    from a reachable filter every call completes and every bit that was
    set at the start is still set at the end; only [clear] resets bits. *)
Theorem monotonic_bits (F : BloomFilter.t) (ops : list op) :
  reachable F ->
  no_clear ops = true ->
  exists F',
    run ops F = ok F' /\
    forall j, bit_at (BloomFilter.bits F) j = true ->
              bit_at (BloomFilter.bits F') j = true.
Proof.
  intros HR Hnc. apply reachable_wf in HR.
  destruct (run_no_clear ops F HR Hnc) as (F' & Hrun & _ & _ & Hmono).
  eauto.
Qed.

Lemma monotonic_bits_witness :
  exists F',
    run [Add "abd"; MayContain "abc"; Add "xyz"]
        (BloomFilter.mk 64 2 [66048; 0] 1 (map (makeHashFunc 64) (xrange 2)))
      = ok F' /\
    forall j, bit_at [66048; 0] j = true ->
              bit_at (BloomFilter.bits F') j = true.
Proof.
  apply (monotonic_bits
           (BloomFilter.mk 64 2 [66048; 0] 1 (map (makeHashFunc 64) (xrange 2)))
           [Add "abd"; MayContain "abc"; Add "xyz"]).
  - apply (reach_add
             (BloomFilter.mk 64 2 [0; 0] 0 (map (makeHashFunc 64) (xrange 2)))
             "abc").
    + apply (reach_init 64 2). reflexivity.
    + apply (add_eq
               (BloomFilter.mk 64 2 [0; 0] 0 (map (makeHashFunc 64) (xrange 2)))
               "abc" [66048; 0]).
      vm_compute. reflexivity.
  - reflexivity.
Defined.

(** [clear] zeroes every word and leaves [m], [k], [n] and [funcs] as they
    were. *)
Lemma clear_spec F :
  Forall (fun w => w = 0) (BloomFilter.bits (BloomFilter.clear F)) /\
  length (BloomFilter.bits (BloomFilter.clear F)) = length (BloomFilter.bits F) /\
  BloomFilter.m (BloomFilter.clear F) = BloomFilter.m F /\
  BloomFilter.k (BloomFilter.clear F) = BloomFilter.k F /\
  BloomFilter.funcs (BloomFilter.clear F) = BloomFilter.funcs F /\
  BloomFilter.n (BloomFilter.clear F) = BloomFilter.n F.
Proof.
  cbn. rewrite length_map. repeat split.
  apply Forall_map, Forall_forall. reflexivity.
Qed.

Lemma clear_bits F j : bit_at (BloomFilter.bits (BloomFilter.clear F)) j = false.
Proof.
  unfold bit_at. cbn [BloomFilter.clear BloomFilter.bits].
  destruct (nth_in_or_default (Z.to_nat (j / 32))
              (map (fun _ => 0) (BloomFilter.bits F)) 0) as [Hin | Hd]; [|rewrite Hd].
  - apply in_map_iff in Hin. destruct Hin as (w & <- & _). apply Z.testbit_0_l.
  - apply Z.testbit_0_l.
Qed.

(** C2: [clear] does not reset [n].  On the filter built by
    [BloomFilter (32, 1)] followed by [add ("a")], [clear] zeroes the one
    word of [bits] and keeps [m], [k] and [funcs], but [n] is still 1. *)
Theorem clear_keeps_n :
  BloomFilter.__init__ 32 1 =
    ok (BloomFilter.mk 32 1 [0] 0 (map (makeHashFunc 32) (xrange 1))) /\
  BloomFilter.add
    (BloomFilter.mk 32 1 [0] 0 (map (makeHashFunc 32) (xrange 1))) "a" =
    ok (BloomFilter.mk 32 1 [32768] 1 (map (makeHashFunc 32) (xrange 1))) /\
  BloomFilter.clear
    (BloomFilter.mk 32 1 [32768] 1 (map (makeHashFunc 32) (xrange 1))) =
    BloomFilter.mk 32 1 [0] 1 (map (makeHashFunc 32) (xrange 1)) /\
  BloomFilter.n
    (BloomFilter.clear
       (BloomFilter.mk 32 1 [32768] 1 (map (makeHashFunc 32) (xrange 1))))
    <> 0.
Proof.
  split; [reflexivity|]. split.
  - apply (add_eq
             (BloomFilter.mk 32 1 [0] 0 (map (makeHashFunc 32) (xrange 1)))
             "a" [32768]).
    vm_compute. reflexivity.
  - split; [reflexivity|]. cbn [BloomFilter.clear BloomFilter.n]. lia.
Qed.

(** C4: the constructor raises [AssertionError] or [ValueError] whenever
    [m <= 0], [k <= 0] or [m] is not a multiple of 32 (so for [m = 31],
    [m = -32] and [k = 0]); otherwise (so for [m = 32], [k = 1]) it returns
    a filter of [m // 32] zero words, [n = 0] and the [k] hash functions
    [makeHashFunc (m, i)] for [i = 0 .. k-1]. *)
Theorem init_spec (m k : Z) :
  (m <= 0 \/ k <= 0 \/ m mod 32 <> 0 ->
   exists e, BloomFilter.__init__ m k = raise e /\ InvalidParameter e) /\
  (0 < m -> 0 < k -> m mod 32 = 0 ->
   exists F,
     BloomFilter.__init__ m k = ok F /\
     BloomFilter.m F = m /\ BloomFilter.k F = k /\ BloomFilter.n F = 0 /\
     BloomFilter.bits F = repeat 0 (Z.to_nat (m / 32)) /\
     length (BloomFilter.funcs F) = Z.to_nat k /\
     forall i, 0 <= i < k ->
       nth_error (BloomFilter.funcs F) (Z.to_nat i) = Some (makeHashFunc m i)).
Proof.
  split.
  - intros Hbad. unfold BloomFilter.__init__, InvalidParameter.
    destruct (Z.gtb_spec m 0); cbn [negb]; [|eauto].
    destruct (Z.gtb_spec k 0); cbn [negb]; [|eauto].
    destruct (Z.eqb_spec (m mod 32) 0); cbn [negb]; [lia|eauto].
  - intros Hm Hk Ha. rewrite init_eq by assumption.
    eexists. split; [reflexivity|]. cbn.
    repeat (split; [reflexivity|]). split.
    + now rewrite length_map, xrange_length.
    + intros i Hi. rewrite nth_error_map, xrange_nth by assumption.
      reflexivity.
Qed.

Lemma init_spec_witness :
  (exists e, BloomFilter.__init__ 31 1 = raise e /\ InvalidParameter e) /\
  (exists e, BloomFilter.__init__ (-32) 1 = raise e /\ InvalidParameter e) /\
  (exists e, BloomFilter.__init__ 32 0 = raise e /\ InvalidParameter e) /\
  (exists F,
     BloomFilter.__init__ 32 1 = ok F /\
     BloomFilter.m F = 32 /\ BloomFilter.k F = 1 /\ BloomFilter.n F = 0 /\
     BloomFilter.bits F = repeat 0 (Z.to_nat (32 / 32)) /\
     length (BloomFilter.funcs F) = Z.to_nat 1 /\
     forall i, 0 <= i < 1 ->
       nth_error (BloomFilter.funcs F) (Z.to_nat i) = Some (makeHashFunc 32 i)).
Proof.
  split; [|split; [|split]].
  - apply (proj1 (init_spec 31 1)). right; right. vm_compute. discriminate.
  - apply (proj1 (init_spec (-32) 1)). left. lia.
  - apply (proj1 (init_spec 32 0)). right; left. lia.
  - apply (proj2 (init_spec 32 1)); [lia | lia | reflexivity].
Defined.

(** C9: serialization round trip.  Restoring the state [(k, n, bits)] of a
    reachable filter into any object recomputes [m] as [len (bits) * 32],
    rebuilds the hash functions from [(m, k)], gives back the filter that
    was saved, and so answers [maycontain] as the original does. *)
Theorem getstate_setstate (F self : BloomFilter.t) :
  reachable F ->
  let F' := BloomFilter.__setstate__ self (BloomFilter.__getstate__ F) in
  BloomFilter.m F' = Z.of_nat (length (BloomFilter.bits F)) * 32 /\
  BloomFilter.funcs F' =
    map (makeHashFunc (BloomFilter.m F')) (xrange (BloomFilter.k F)) /\
  F' = F /\
  forall item, BloomFilter.maycontain F' item = BloomFilter.maycontain F item.
Proof.
  intros HR F'. apply reachable_wf in HR.
  assert (F' = F) as HFF.
  { subst F'. destruct F as [m k bits n funcs]. destruct HR as [? ? ? ? Hs ? Hf].
    cbn in *. subst m. now rewrite Hf. }
  split; [reflexivity|]. split; [reflexivity|]. split; [exact HFF|].
  intros item. now rewrite HFF.
Qed.

Lemma getstate_setstate_witness :
  let F := BloomFilter.mk 64 2 [66048; 0] 1 (map (makeHashFunc 64) (xrange 2)) in
  let self := BloomFilter.mk 0 0 [] 0 [] in
  let F' := BloomFilter.__setstate__ self (BloomFilter.__getstate__ F) in
  BloomFilter.m F' = Z.of_nat (length (BloomFilter.bits F)) * 32 /\
  BloomFilter.funcs F' =
    map (makeHashFunc (BloomFilter.m F')) (xrange (BloomFilter.k F)) /\
  F' = F /\
  forall item, BloomFilter.maycontain F' item = BloomFilter.maycontain F item.
Proof.
  intros F self.
  apply (getstate_setstate F self).
  apply (reach_add
           (BloomFilter.mk 64 2 [0; 0] 0 (map (makeHashFunc 64) (xrange 2)))
           "abc").
  - apply (reach_init 64 2). reflexivity.
  - apply (add_eq
             (BloomFilter.mk 64 2 [0; 0] 0 (map (makeHashFunc 64) (xrange 2)))
             "abc" [66048; 0]).
    vm_compute. reflexivity.
Defined.

(** C10: totality.  On a reachable filter, for every byte string, [add]
    and [maycontain] return without raising and [clear] returns a reachable
    filter; every hash function returns an index [idx] in [0, m), and the
    word index [idx // 32] of any such index is a valid position of the
    [m // 32]-word array. *)
Theorem operations_total (F : BloomFilter.t) (item : string) :
  reachable F ->
  (exists F', BloomFilter.add F item = ok F' /\ reachable F') /\
  (exists b, BloomFilter.maycontain F item = ok b) /\
  reachable (BloomFilter.clear F) /\
  Z.of_nat (length (BloomFilter.bits F)) = BloomFilter.m F / 32 /\
  Forall (fun f => exists idx, f item = ok idx /\ 0 <= idx < BloomFilter.m F)
         (BloomFilter.funcs F) /\
  forall idx, 0 <= idx < BloomFilter.m F ->
    0 <= idx / 32 < Z.of_nat (length (BloomFilter.bits F)) /\
    exists w, getitem (BloomFilter.bits F) (idx / 32) = ok w /\
    exists bits', setitem (BloomFilter.bits F) (idx / 32)
                    (Z.lor w (Z.shiftl 1 (idx mod 32))) = ok bits'.
Proof.
  intros HR. pose proof (reachable_wf F HR) as HF.
  pose proof (wf_size F HF) as Hsize.
  split; [|split; [|split; [|split; [|split]]]].
  - destruct (add_total F item HF) as (bits' & Hadd & _).
    eexists. split; [exact Hadd|]. exact (reach_add F item _ HR Hadd).
  - now apply maycontain_total.
  - now apply reach_clear.
  - rewrite <- Hsize. now rewrite Z.div_mul.
  - pose proof (wf_hashes F item HF) as Hh. unfold hashes_in_range in Hh.
    eapply Forall_impl; [|exact Hh].
    intros f (i & Hf & Hi). exists i. split; [exact Hf|]. lia.
  - intros idx Hidx.
    assert (0 <= idx / 32 < Z.of_nat (length (BloomFilter.bits F))) as Hw
      by (apply word_index_in_range; lia).
    split; [exact Hw|].
    eexists. split; [now apply getitem_in_range|].
    eexists. now apply setitem_in_range.
Qed.

Lemma operations_total_witness :
  let F := BloomFilter.mk 64 2 [0; 0] 0 (map (makeHashFunc 64) (xrange 2)) in
  (exists F', BloomFilter.add F "abc" = ok F' /\ reachable F') /\
  (exists b, BloomFilter.maycontain F "abc" = ok b) /\
  reachable (BloomFilter.clear F) /\
  Z.of_nat (length (BloomFilter.bits F)) = BloomFilter.m F / 32 /\
  Forall (fun f : string -> result Z =>
            exists idx, f "abc"%string = ok idx /\ 0 <= idx < BloomFilter.m F)
         (BloomFilter.funcs F) /\
  forall idx, 0 <= idx < BloomFilter.m F ->
    0 <= idx / 32 < Z.of_nat (length (BloomFilter.bits F)) /\
    exists w, getitem (BloomFilter.bits F) (idx / 32) = ok w /\
    exists bits', setitem (BloomFilter.bits F) (idx / 32)
                    (Z.lor w (Z.shiftl 1 (idx mod 32))) = ok bits'.
Proof.
  intros F.
  apply (operations_total F "abc").
  apply (reach_init 64 2). reflexivity.
Defined.

(** ** optimalBloom: the integer stage *)

(** [(m + 31) & ~0x1F] is the least multiple of 32 that is at least [m]. *)
Lemma round_up_32 mc :
  Z.land (mc + 31) (Z.lnot 0x1F) = 32 * ((mc + 31) / 32) /\
  mc <= Z.land (mc + 31) (Z.lnot 0x1F) < mc + 32.
Proof.
  assert (Z.land (mc + 31) (Z.lnot 0x1F) = 32 * ((mc + 31) / 32)) as Heq.
  { rewrite <- Z.ldiff_land. change 0x1F with (Z.ones 5).
    rewrite Z.ldiff_ones_r by lia.
    rewrite Z.shiftr_div_pow2, Z.shiftl_mul_pow2 by lia.
    change (2 ^ 5) with 32. ring. }
  split; [exact Heq|]. rewrite Heq.
  pose proof (Z.div_mod (mc + 31) 32 ltac:(lia)).
  pose proof (Z.mod_pos_bound (mc + 31) 32 ltac:(lia)). lia.
Qed.

(** Given the two float results, [optimalBloom] returns a filter exactly
    when the ceiling [mc] is positive; its [m] is then [mc] rounded up to a
    multiple of 32 and its [k] is at least 1. *)
Lemma optimalBloom_ints_ok mc kt :
  0 < mc ->
  exists F,
    optimalBloom_ints mc kt = ok F /\
    BloomFilter.m F = 32 * ((mc + 31) / 32) /\
    mc <= BloomFilter.m F < mc + 32 /\
    BloomFilter.k F = Z.max (kt (BloomFilter.m F)) 1 /\
    1 <= BloomFilter.k F.
Proof.
  intros Hmc. unfold optimalBloom_ints.
  destruct (round_up_32 mc) as [Heq Hb].
  rewrite init_eq.
  - eexists. split; [reflexivity|].
    cbn [BloomFilter.m BloomFilter.k].
    split; [exact Heq|]. split; [exact Hb|]. split; [reflexivity|]. lia.
  - lia.
  - lia.
  - rewrite Heq, Z.mul_comm. apply Z.mod_mul. lia.
Qed.

Lemma optimalBloom_ints_raises mc kt :
  mc <= 0 -> optimalBloom_ints mc kt = raise AssertionError.
Proof.
  intros Hmc. unfold optimalBloom_ints, BloomFilter.__init__.
  destruct (round_up_32 mc) as [Heq Hb].
  assert ((mc + 31) / 32 <= 0) as Hq.
  { apply Z.lt_succ_r. apply Z.div_lt_upper_bound; lia. }
  destruct (Z.gtb_spec (Z.land (mc + 31) (Z.lnot 0x1F)) 0); [lia|].
  reflexivity.
Qed.

(** * Further properties of the code *)

(** ** makeHashFunc *)

Lemma digest_fold_reduced m v s digest :
  v mod m = v -> digest_fold m v s digest mod m = digest_fold m v s digest.
Proof.
  revert v s. induction digest as [|b rest IH]; intros v s Hv;
    cbn [digest_fold].
  - exact Hv.
  - apply IH. apply Zmod_mod.
Qed.

Lemma weighted_app d1 d2 :
  weighted (d1 ++ d2) = weighted d1 + 8 ^ Z.of_nat (length d1) * weighted d2.
Proof.
  induction d1 as [|b rest IH]; cbn [app weighted length].
  - rewrite Z.pow_0_r. ring.
  - rewrite IH, Nat2Z.inj_succ, Z.pow_succ_r by lia. ring.
Qed.

Lemma makeHashFunc_weighted m salt value :
  m <> 0 ->
  makeHashFunc m salt value =
  ok (weighted (sha1_digest (str salt) value) mod m).
Proof.
  intros Hm. rewrite makeHashFunc_eq by assumption. unfold ok. f_equal.
  rewrite <- digest_fold_reduced by (apply Zmod_0_l).
  rewrite digest_fold_weighted by assumption.
  now rewrite Z.add_0_l, Z.mul_1_l.
Qed.

(** X1: for every modulus [m] other than 0, negative ones included, the
    returned function computes the sum of the digest bytes weighted by
    [8^i] (byte [i] of the SHA-1 digest of [str (salt)] followed by the
    input), reduced by Python's [%], whose result has the sign of [m]. *)
Theorem makeHashFunc_weighted_sum (m salt : Z) (value : string) :
  m <> 0 ->
  makeHashFunc m salt value =
    ok (weighted (sha1_digest (str salt) value) mod m) /\
  (0 < m -> 0 <= weighted (sha1_digest (str salt) value) mod m < m) /\
  (m < 0 -> m < weighted (sha1_digest (str salt) value) mod m <= 0).
Proof.
  intros Hm. split; [|split].
  - now apply makeHashFunc_weighted.
  - intros Hpos. apply Z.mod_pos_bound. assumption.
  - intros Hneg. apply Z.mod_neg_bound. assumption.
Qed.

Lemma makeHashFunc_weighted_sum_witness :
  makeHashFunc (-32) 7 "abc" =
    ok (weighted (sha1_digest (str 7) "abc") mod (-32)) /\
  (0 < -32 -> 0 <= weighted (sha1_digest (str 7) "abc") mod (-32) < -32) /\
  (-32 < 0 -> -32 < weighted (sha1_digest (str 7) "abc") mod (-32) <= 0).
Proof. apply (makeHashFunc_weighted_sum (-32) 7 "abc"). lia. Defined.

(** X2: when [m] divides [8^j], the digest bytes from position [j] on do not
    reach the hash value: it is the weighted sum of the first [j] bytes
    modulo [m]. *)
Theorem makeHashFunc_low_bytes (m salt : Z) (value : string) (j : nat) :
  0 < m ->
  (8 ^ Z.of_nat j) mod m = 0 ->
  makeHashFunc m salt value =
    ok (weighted (firstn j (sha1_digest (str salt) value)) mod m).
Proof.
  intros Hm Hdiv.
  rewrite makeHashFunc_weighted by lia.
  unfold ok. f_equal.
  set (d := sha1_digest (str salt) value).
  destruct (Nat.le_gt_cases (length d) j) as [Hle|Hgt].
  - now rewrite firstn_all2.
  - rewrite <- (firstn_skipn j d) at 1.
    rewrite weighted_app, length_firstn, Nat.min_l by lia.
    rewrite <- Zplus_mod_idemp_r, <- Zmult_mod_idemp_l, Hdiv.
    now rewrite Z.mul_0_l, Zmod_0_l, Z.add_0_r.
Qed.

Lemma makeHashFunc_low_bytes_witness :
  makeHashFunc 32 0 "abc" =
    ok (weighted (firstn 2 (sha1_digest (str 0) "abc")) mod 32).
Proof.
  apply (makeHashFunc_low_bytes 32 0 "abc" 2); [lia | reflexivity].
Defined.

(** X3: with modulus 0 the returned function raises [ZeroDivisionError] on
    every input, at the first digest byte. *)
Theorem makeHashFunc_modulus_zero (salt : Z) (value : string) :
  makeHashFunc 0 salt value = raise ZeroDivisionError.
Proof.
  unfold makeHashFunc.
  pose proof (sha1_digest_length (str salt) value) as Hlen.
  destruct (sha1_digest (str salt) value) as [|b rest]; [discriminate|].
  reflexivity.
Qed.

(** ** What add writes *)

Lemma same_bit_index i j :
  0 <= i -> 0 <= j ->
  Nat.eqb (Z.to_nat (j / 32)) (Z.to_nat (i / 32)) && (j mod 32 =? i mod 32)
  = (i =? j).
Proof.
  intros Hi Hj.
  pose proof (Z.div_mod i 32 ltac:(lia)) as Di.
  pose proof (Z.div_mod j 32 ltac:(lia)) as Dj.
  pose proof (Z.div_pos i 32 Hi ltac:(lia)).
  pose proof (Z.div_pos j 32 Hj ltac:(lia)).
  destruct (Z.eqb_spec i j) as [->|Hne].
  - now rewrite Nat.eqb_refl, Z.eqb_refl.
  - destruct (Nat.eqb_spec (Z.to_nat (j / 32)) (Z.to_nat (i / 32))) as [Hw|Hw];
      [|reflexivity].
    destruct (Z.eqb_spec (j mod 32) (i mod 32)) as [Hb|Hb]; [|reflexivity].
    exfalso. apply Hne. apply Z2Nat.inj in Hw; lia.
Qed.

Lemma add_loop_exact item fs : forall bits,
  hashes_in_range (length bits) item fs ->
  exists bits',
    for_each (BloomFilter.set_bit item) fs bits = ok bits' /\
    forall j, 0 <= j -> bit_at bits' j = bit_at bits j || hits fs item j.
Proof.
  induction fs as [|f rest IH]; intros bits Hr.
  - exists bits. split; [reflexivity|]. intros j _. cbn.
    now rewrite orb_false_r.
  - apply Forall_cons_iff in Hr. destruct Hr as [(i & Hf & Hi) Hrest].
    cbn [for_each]. rewrite (set_bit_eq _ _ _ _ Hf Hi). cbn [bind ok].
    set (bits1 := update bits _ _).
    assert (length bits1 = length bits) as Hlen by apply update_length.
    destruct (IH bits1) as (bits' & Hrun & Hbits).
    { unfold hashes_in_range. rewrite Hlen. exact Hrest. }
    exists bits'. split; [exact Hrun|].
    intros j Hj. rewrite (Hbits j Hj). subst bits1.
    rewrite bit_at_set_bit by assumption.
    rewrite same_bit_index by lia.
    unfold hits. cbn [existsb]. rewrite Hf. now rewrite orb_assoc.
Qed.

(** X4: what [add] writes, exactly.  After [add (item)] on a reachable
    filter, bit [j] is set if and only if it was set before or one of the
    [k] hash functions maps the item to [j]; [n] is one more, and [m], [k]
    and the hash functions are as before. *)
Theorem add_exact (F : BloomFilter.t) (item : string) :
  reachable F ->
  exists F',
    BloomFilter.add F item = ok F' /\
    (forall j, 0 <= j ->
       bit_at (BloomFilter.bits F') j =
       bit_at (BloomFilter.bits F) j || hits (BloomFilter.funcs F) item j) /\
    BloomFilter.n F' = BloomFilter.n F + 1 /\
    BloomFilter.m F' = BloomFilter.m F /\
    BloomFilter.k F' = BloomFilter.k F /\
    BloomFilter.funcs F' = BloomFilter.funcs F.
Proof.
  intros HR. apply reachable_wf in HR.
  destruct (add_loop_exact item _ _ (wf_hashes F item HR))
    as (bits' & Hrun & Hbits).
  eexists. split; [exact (add_eq F item bits' Hrun)|].
  cbn. auto.
Qed.

Lemma add_exact_witness :
  let F := BloomFilter.mk 64 2 [0; 0] 0 (map (makeHashFunc 64) (xrange 2)) in
  exists F',
    BloomFilter.add F "abc" = ok F' /\
    (forall j, 0 <= j ->
       bit_at (BloomFilter.bits F') j =
       bit_at (BloomFilter.bits F) j || hits (BloomFilter.funcs F) "abc" j) /\
    BloomFilter.n F' = BloomFilter.n F + 1 /\
    BloomFilter.m F' = BloomFilter.m F /\
    BloomFilter.k F' = BloomFilter.k F /\
    BloomFilter.funcs F' = BloomFilter.funcs F.
Proof.
  intros F. apply (add_exact F "abc").
  apply (reach_init 64 2). reflexivity.
Defined.

(** Two arrays of 32-bit words with the same bits are the same array. *)
Lemma words_ext (a b : list Z) :
  length a = length b ->
  Forall (fun w => 0 <= w < 2 ^ 32) a ->
  Forall (fun w => 0 <= w < 2 ^ 32) b ->
  (forall j, 0 <= j -> bit_at a j = bit_at b j) ->
  a = b.
Proof.
  intros Hlen Ha Hb Hbits.
  apply (nth_ext a b 0 0 Hlen). intros p Hp.
  assert (0 <= nth p a 0 < 2 ^ 32) as Hwa
    by (rewrite Forall_forall in Ha; apply Ha, nth_In; lia).
  assert (0 <= nth p b 0 < 2 ^ 32) as Hwb
    by (rewrite Forall_forall in Hb; apply Hb, nth_In; lia).
  apply Z.bits_inj'. intros t Ht.
  destruct (Z.lt_ge_cases t 32) as [Hlo|Hhi].
  - specialize (Hbits (32 * Z.of_nat p + t) ltac:(lia)).
    unfold bit_at in Hbits.
    replace ((32 * Z.of_nat p + t) / 32) with (Z.of_nat p) in Hbits
      by (apply (Z.div_unique _ 32 _ t); lia).
    replace ((32 * Z.of_nat p + t) mod 32) with t in Hbits
      by (apply (Z.mod_unique _ 32 (Z.of_nat p) t); lia).
    now rewrite Nat2Z.id in Hbits.
  - rewrite <- (Z.mod_small (nth p a 0) (2 ^ 32)) by assumption.
    rewrite <- (Z.mod_small (nth p b 0) (2 ^ 32)) by assumption.
    now rewrite !Z.mod_pow2_bits_high by lia.
Qed.

Lemma add_succeeds F item :
  wf F ->
  exists F',
    BloomFilter.add F item = ok F' /\ wf F' /\
    length (BloomFilter.bits F') = length (BloomFilter.bits F) /\
    (forall j, 0 <= j ->
       bit_at (BloomFilter.bits F') j =
       bit_at (BloomFilter.bits F) j || hits (BloomFilter.funcs F) item j) /\
    BloomFilter.n F' = BloomFilter.n F + 1 /\
    BloomFilter.m F' = BloomFilter.m F /\
    BloomFilter.k F' = BloomFilter.k F /\
    BloomFilter.funcs F' = BloomFilter.funcs F.
Proof.
  intros HF.
  destruct (add_loop_exact item _ _ (wf_hashes F item HF))
    as (bits' & Hrun & Hbits).
  pose proof (add_eq F item bits' Hrun) as Hadd.
  eexists. split; [exact Hadd|]. split; [exact (add_wf F item _ HF Hadd)|].
  destruct (add_total F item HF) as (bits2 & Hadd2 & Hp).
  rewrite Hadd in Hadd2. injection Hadd2 as <-.
  cbn. split; [exact (alp_length _ _ _ _ Hp)|]. auto.
Qed.

(** X5: two [add] calls commute.  Adding [x] then [y] to a reachable filter
    completes and leaves the same filter (bit array, counter and hash
    functions) as adding [y] then [x]. *)
Theorem add_commutes (F : BloomFilter.t) (x y : string) :
  reachable F ->
  exists F2,
    (Fx <- BloomFilter.add F x ;; BloomFilter.add Fx y) = ok F2 /\
    (Fy <- BloomFilter.add F y ;; BloomFilter.add Fy x) = ok F2.
Proof.
  intros HR. apply reachable_wf in HR.
  destruct (add_succeeds F x HR)
    as (Fx & Hx & HFx & Lx & Bx & Nx & Mx & Kx & Ux).
  destruct (add_succeeds Fx y HFx)
    as (Fxy & Hxy & HFxy & Lxy & Bxy & Nxy & Mxy & Kxy & Uxy).
  destruct (add_succeeds F y HR)
    as (Fy & Hy & HFy & Ly & By & Ny & My & Ky & Uy).
  destruct (add_succeeds Fy x HFy)
    as (Fyx & Hyx & HFyx & Lyx & Byx & Nyx & Myx & Kyx & Uyx).
  exists Fxy. rewrite Hx, Hy. cbn [bind ok]. split; [exact Hxy|].
  rewrite Hyx. unfold ok. f_equal.
  assert (BloomFilter.bits Fyx = BloomFilter.bits Fxy) as Hbits.
  { apply words_ext.
    - congruence.
    - exact (wf_words _ HFyx).
    - exact (wf_words _ HFxy).
    - intros j Hj. rewrite Byx, By, Bxy, Bx by assumption.
      rewrite Ux, Uy.
      destruct (bit_at (BloomFilter.bits F) j),
        (hits (BloomFilter.funcs F) x j), (hits (BloomFilter.funcs F) y j);
        reflexivity. }
  destruct Fxy, Fyx. cbn in *. f_equal; congruence || lia.
Qed.

Lemma add_commutes_witness :
  let F := BloomFilter.mk 64 2 [0; 0] 0 (map (makeHashFunc 64) (xrange 2)) in
  exists F2,
    (Fx <- BloomFilter.add F "abc" ;; BloomFilter.add Fx "abd") = ok F2 /\
    (Fy <- BloomFilter.add F "abd" ;; BloomFilter.add Fy "abc") = ok F2.
Proof.
  intros F. apply (add_commutes F "abc" "abd").
  apply (reach_init 64 2). reflexivity.
Defined.

(** X6: adding an item a second time changes no bit: the second [add] only
    increments [n]. *)
Theorem add_twice (F : BloomFilter.t) (x : string) :
  reachable F ->
  exists F1 F2,
    BloomFilter.add F x = ok F1 /\
    BloomFilter.add F1 x = ok F2 /\
    BloomFilter.bits F2 = BloomFilter.bits F1 /\
    BloomFilter.n F2 = BloomFilter.n F1 + 1.
Proof.
  intros HR. apply reachable_wf in HR.
  destruct (add_succeeds F x HR)
    as (F1 & H1 & HF1 & L1 & B1 & N1 & M1 & K1 & U1).
  destruct (add_succeeds F1 x HF1)
    as (F2 & H2 & HF2 & L2 & B2 & N2 & M2 & K2 & U2).
  exists F1, F2. split; [exact H1|]. split; [exact H2|]. split; [|exact N2].
  apply words_ext.
  - exact L2.
  - exact (wf_words _ HF2).
  - exact (wf_words _ HF1).
  - intros j Hj. rewrite B2, B1, U1 by assumption.
    now rewrite <- orb_assoc, orb_diag.
Qed.

Lemma add_twice_witness :
  let F := BloomFilter.mk 64 2 [0; 0] 0 (map (makeHashFunc 64) (xrange 2)) in
  exists F1 F2,
    BloomFilter.add F "abc" = ok F1 /\
    BloomFilter.add F1 "abc" = ok F2 /\
    BloomFilter.bits F2 = BloomFilter.bits F1 /\
    BloomFilter.n F2 = BloomFilter.n F1 + 1.
Proof.
  intros F. apply (add_twice F "abc").
  apply (reach_init 64 2). reflexivity.
Defined.

(** ** What maycontain answers *)

Lemma In_xrange k s : In s (xrange k) <-> 0 <= s < k.
Proof.
  unfold xrange. rewrite in_map_iff. split.
  - intros (i & <- & Hi). apply in_seq in Hi. lia.
  - intros Hs. exists (Z.to_nat s). split; [lia|]. apply in_seq. lia.
Qed.

Lemma xrange_cons k : 0 < k -> exists rest, xrange k = 0 :: rest.
Proof.
  intros Hk. unfold xrange.
  destruct (Z.to_nat k) as [|c] eqn:Hc; [lia|].
  cbn [seq map]. eauto.
Qed.

Lemma xrange_nil k : k <= 0 -> xrange k = [].
Proof.
  intros Hk. unfold xrange. now replace (Z.to_nat k) with 0%nat by lia.
Qed.

Lemma maycontain_spec F x :
  wf F ->
  BloomFilter.maycontain F x =
  ok (forallb (fun f => match f x with
                        | inr i => bit_at (BloomFilter.bits F) i
                        | inl _ => false
                        end) (BloomFilter.funcs F)).
Proof.
  intros HF. unfold BloomFilter.maycontain.
  apply test_bits_spec. now apply wf_hashes.
Qed.

Lemma maycontain_all_zero F x :
  wf F ->
  (forall j, bit_at (BloomFilter.bits F) j = false) ->
  BloomFilter.maycontain F x = ok false.
Proof.
  intros HF Hz. rewrite maycontain_spec by assumption.
  unfold ok. f_equal.
  rewrite (wf_funcs F HF).
  destruct (xrange_cons _ (wf_k_pos F HF)) as (rest & ->).
  cbn [map forallb].
  destruct (makeHashFunc_range (BloomFilter.m F) 0 x (wf_m_pos F HF))
    as (v & Hv & _).
  rewrite Hv. cbn [ok]. now rewrite Hz.
Qed.

(** X7: an empty filter contains nothing.  On a filter just built by the
    constructor, and on any reachable filter after [clear], [maycontain]
    returns [False] for every item. *)
Theorem maycontain_empty (m k : Z) (F0 F : BloomFilter.t) (x : string) :
  BloomFilter.__init__ m k = ok F0 ->
  reachable F ->
  BloomFilter.maycontain F0 x = ok false /\
  BloomFilter.maycontain (BloomFilter.clear F) x = ok false.
Proof.
  intros Hinit HR. split.
  - apply maycontain_all_zero; [exact (init_wf m k F0 Hinit)|].
    apply init_inv in Hinit. destruct Hinit as (_ & _ & _ & ->).
    intros j. unfold bit_at. cbn [BloomFilter.bits].
    rewrite nth_repeat. apply Z.testbit_0_l.
  - apply maycontain_all_zero; [apply clear_wf, reachable_wf, HR|].
    apply clear_bits.
Qed.

Lemma maycontain_empty_witness :
  BloomFilter.maycontain
    (BloomFilter.mk 64 2 [0; 0] 0 (map (makeHashFunc 64) (xrange 2)))
    "abc" = ok false /\
  BloomFilter.maycontain
    (BloomFilter.clear
       (BloomFilter.mk 64 2 [66048; 0] 1 (map (makeHashFunc 64) (xrange 2))))
    "abc" = ok false.
Proof.
  apply (maycontain_empty 64 2
           (BloomFilter.mk 64 2 [0; 0] 0 (map (makeHashFunc 64) (xrange 2)))
           (BloomFilter.mk 64 2 [66048; 0] 1
              (map (makeHashFunc 64) (xrange 2)))
           "abc").
  - reflexivity.
  - apply (reach_add
             (BloomFilter.mk 64 2 [0; 0] 0 (map (makeHashFunc 64) (xrange 2)))
             "abc").
    + apply (reach_init 64 2). reflexivity.
    + apply (add_eq
               (BloomFilter.mk 64 2 [0; 0] 0 (map (makeHashFunc 64) (xrange 2)))
               "abc" [66048; 0]).
      vm_compute. reflexivity.
Defined.

Lemma run_adds_exact ys : forall F,
  wf F ->
  exists F',
    run (map Add ys) F = ok F' /\ wf F' /\
    BloomFilter.funcs F' = BloomFilter.funcs F /\
    forall j, 0 <= j ->
      bit_at (BloomFilter.bits F') j =
      bit_at (BloomFilter.bits F) j
      || existsb (fun y => hits (BloomFilter.funcs F) y j) ys.
Proof.
  unfold run. induction ys as [|y rest IH]; intros F HF.
  - exists F. split; [reflexivity|]. split; [exact HF|].
    split; [reflexivity|]. intros j _. cbn [existsb].
    now rewrite orb_false_r.
  - destruct (add_succeeds F y HF)
      as (F1 & H1 & HF1 & _ & B1 & _ & _ & _ & U1).
    destruct (IH F1 HF1) as (F2 & Hrun & HF2 & U2 & B2).
    exists F2. cbn [map for_each step]. rewrite H1. cbn [bind ok].
    split; [exact Hrun|]. split; [exact HF2|]. split; [congruence|].
    intros j Hj. rewrite B2, B1, U1 by assumption.
    cbn [existsb]. now rewrite orb_assoc.
Qed.

(** X8: when [maycontain] answers [True].  On the filter obtained from the
    constructor by adding the items [ys], [maycontain (x)] returns [True]
    exactly when each of the [k] hash values of [x] is also a hash value,
    under one of the [k] functions, of some added item. *)
Theorem maycontain_after_adds (m k : Z) (F0 : BloomFilter.t)
    (ys : list string) (x : string) :
  BloomFilter.__init__ m k = ok F0 ->
  exists F b,
    run (map Add ys) F0 = ok F /\
    BloomFilter.maycontain F x = ok b /\
    (b = true <->
     forall s, 0 <= s < k ->
       exists i y s',
         makeHashFunc m s x = ok i /\
         In y ys /\ 0 <= s' < k /\ makeHashFunc m s' y = ok i).
Proof.
  intros Hinit. pose proof (init_wf m k F0 Hinit) as HF0.
  destruct (run_adds_exact ys F0 HF0) as (F & Hrun & HF & Hfs & Hbits).
  exists F. eexists. split; [exact Hrun|].
  split; [exact (maycontain_spec F x HF)|].
  assert (forall j, bit_at (BloomFilter.bits F0) j = false) as Hzero.
  { pose proof Hinit as Hi. apply init_inv in Hi.
    destruct Hi as (_ & _ & _ & ->).
    intros j. unfold bit_at. cbn [BloomFilter.bits].
    rewrite nth_repeat. apply Z.testbit_0_l. }
  assert (BloomFilter.funcs F0 = map (makeHashFunc m) (xrange k)) as Hf0.
  { apply init_inv in Hinit. destruct Hinit as (_ & _ & _ & ->). reflexivity. }
  assert (0 < m) as Hm by (apply init_inv in Hinit; tauto).
  rewrite Hfs, Hf0. rewrite forallb_forall. split.
  - intros Hall s Hs.
    destruct (makeHashFunc_range m s x Hm) as (i & Hi & Hir).
    specialize (Hall (makeHashFunc m s)
                  (in_map _ _ _ (proj2 (In_xrange k s) Hs))).
    rewrite Hi in Hall. cbn [ok] in Hall.
    rewrite Hbits, Hzero in Hall by lia.
    cbn [orb] in Hall. apply existsb_exists in Hall.
    destruct Hall as (y & Hy & Hhit).
    unfold hits in Hhit. rewrite Hf0 in Hhit.
    apply existsb_exists in Hhit. destruct Hhit as (g & Hg & Hgi).
    apply in_map_iff in Hg. destruct Hg as (s' & <- & Hs').
    apply In_xrange in Hs'.
    destruct (makeHashFunc m s' y) as [e|i'] eqn:Hi'; [discriminate|].
    apply Z.eqb_eq in Hgi. subst i'.
    exists i, y, s'. auto.
  - intros Hall f Hf. apply in_map_iff in Hf. destruct Hf as (s & <- & Hs).
    apply In_xrange in Hs.
    destruct (Hall s Hs) as (i & y & s' & Hi & Hy & Hs' & Hi').
    destruct (makeHashFunc_range m s x Hm) as (i0 & Hi0 & Hir).
    rewrite Hi. rewrite Hi in Hi0. injection Hi0 as <-. cbn [ok].
    rewrite Hbits by lia. apply orb_true_iff. right.
    apply existsb_exists. exists y. split; [exact Hy|].
    unfold hits. rewrite Hf0. apply existsb_exists.
    exists (makeHashFunc m s'). split.
    + apply in_map. now apply In_xrange.
    + rewrite Hi'. apply Z.eqb_refl.
Qed.

Lemma maycontain_after_adds_witness :
  exists F b,
    run (map Add ["abc"%string; "abd"%string])
        (BloomFilter.mk 64 2 [0; 0] 0 (map (makeHashFunc 64) (xrange 2)))
      = ok F /\
    BloomFilter.maycontain F "xyz" = ok b /\
    (b = true <->
     forall s, 0 <= s < 2 ->
       exists i y s',
         makeHashFunc 64 s "xyz" = ok i /\
         In y ["abc"%string; "abd"%string] /\ 0 <= s' < 2 /\ makeHashFunc 64 s' y = ok i).
Proof.
  apply (maycontain_after_adds 64 2
           (BloomFilter.mk 64 2 [0; 0] 0 (map (makeHashFunc 64) (xrange 2)))
           ["abc"%string; "abd"%string] "xyz").
  reflexivity.
Defined.

(** X9: a positive answer is stable.  Once [maycontain (x)] has returned
    [True] on a reachable filter, it returns [True] after any further
    [add] and [maycontain] calls, as long as [clear] is not called. *)
Theorem maycontain_stable (F : BloomFilter.t) (x : string) (ops : list op) :
  reachable F ->
  no_clear ops = true ->
  BloomFilter.maycontain F x = ok true ->
  exists F', run ops F = ok F' /\ BloomFilter.maycontain F' x = ok true.
Proof.
  intros HR Hnc Hx. apply reachable_wf in HR.
  destruct (run_no_clear ops F HR Hnc) as (F' & Hrun & HF' & Hfs & Hmono).
  exists F'. split; [exact Hrun|].
  rewrite maycontain_spec in Hx |- * by assumption.
  injection Hx as Hx. unfold ok. f_equal.
  rewrite Hfs. rewrite forallb_forall in Hx |- *.
  intros f Hf. specialize (Hx f Hf).
  destruct (f x) as [e|i]; [discriminate|]. now apply Hmono.
Qed.

Lemma maycontain_stable_witness :
  exists F',
    run [Add "abd"; MayContain "xyz"]
        (BloomFilter.mk 64 2 [66048; 0] 1 (map (makeHashFunc 64) (xrange 2)))
      = ok F' /\
    BloomFilter.maycontain F' "abc" = ok true.
Proof.
  apply (maycontain_stable
           (BloomFilter.mk 64 2 [66048; 0] 1 (map (makeHashFunc 64) (xrange 2)))
           "abc" [Add "abd"; MayContain "xyz"]).
  - apply (reach_add
             (BloomFilter.mk 64 2 [0; 0] 0 (map (makeHashFunc 64) (xrange 2)))
             "abc").
    + apply (reach_init 64 2). reflexivity.
    + apply (add_eq
               (BloomFilter.mk 64 2 [0; 0] 0 (map (makeHashFunc 64) (xrange 2)))
               "abc" [66048; 0]).
      vm_compute. reflexivity.
  - reflexivity.
  - vm_compute. reflexivity.
Defined.

(** ** Sequences of operations, clear included *)

Lemma step_total F o :
  reachable F ->
  exists F',
    step F o = ok F' /\ reachable F' /\
    BloomFilter.m F' = BloomFilter.m F /\
    BloomFilter.k F' = BloomFilter.k F /\
    BloomFilter.funcs F' = BloomFilter.funcs F /\
    length (BloomFilter.bits F') = length (BloomFilter.bits F) /\
    BloomFilter.n F' = BloomFilter.n F + count_adds [o].
Proof.
  intros HR. pose proof (reachable_wf F HR) as HF.
  destruct o as [item|item|]; cbn [step count_adds].
  - destruct (add_succeeds F item HF)
      as (F' & Hadd & _ & L & _ & N & M & K & U).
    exists F'. split; [exact Hadd|].
    split; [exact (reach_add F item F' HR Hadd)|].
    repeat (split; [assumption|]). lia.
  - destruct (maycontain_total F item HF) as (b & ->).
    exists F. cbn [bind ok]. split; [reflexivity|]. split; [exact HR|].
    repeat (split; [reflexivity|]). lia.
  - exists (BloomFilter.clear F). split; [reflexivity|].
    split; [now apply reach_clear|]. cbn. rewrite length_map.
    repeat (split; [reflexivity|]). lia.
Qed.

(** X10: every sequence of [add], [maycontain] and [clear] calls on a
    reachable filter completes without raising; [m], [k], the hash functions
    and the length of the bit array never change, and [n] grows by the
    number of [add] calls in the sequence, whatever else is called. *)
Theorem run_total (F : BloomFilter.t) (ops : list op) :
  reachable F ->
  exists F',
    run ops F = ok F' /\ reachable F' /\
    BloomFilter.m F' = BloomFilter.m F /\
    BloomFilter.k F' = BloomFilter.k F /\
    BloomFilter.funcs F' = BloomFilter.funcs F /\
    length (BloomFilter.bits F') = length (BloomFilter.bits F) /\
    BloomFilter.n F' = BloomFilter.n F + count_adds ops.
Proof.
  unfold run. revert F. induction ops as [|o rest IH]; intros F HR.
  - exists F. cbn. repeat (split; [reflexivity || assumption|]). lia.
  - destruct (step_total F o HR) as (F1 & H1 & HR1 & M1 & K1 & U1 & L1 & N1).
    destruct (IH F1 HR1) as (F2 & H2 & HR2 & M2 & K2 & U2 & L2 & N2).
    exists F2. cbn [for_each]. rewrite H1. cbn [bind ok].
    split; [exact H2|]. split; [exact HR2|].
    repeat (split; [congruence|]).
    rewrite N2, N1. destruct o; cbn [count_adds]; lia.
Qed.

Lemma run_total_witness :
  let F := BloomFilter.mk 64 2 [0; 0] 0 (map (makeHashFunc 64) (xrange 2)) in
  exists F',
    run [Add "abc"; Clear; MayContain "abc"; Add "abc"] F = ok F' /\
    reachable F' /\
    BloomFilter.m F' = BloomFilter.m F /\
    BloomFilter.k F' = BloomFilter.k F /\
    BloomFilter.funcs F' = BloomFilter.funcs F /\
    length (BloomFilter.bits F') = length (BloomFilter.bits F) /\
    BloomFilter.n F' =
      BloomFilter.n F
      + count_adds [Add "abc"; Clear; MayContain "abc"; Add "abc"].
Proof.
  intros F.
  apply (run_total F [Add "abc"; Clear; MayContain "abc"; Add "abc"]).
  apply (reach_init 64 2). reflexivity.
Defined.

(** X11: [clear] gives back the bit array and the hash functions of a
    freshly constructed filter: the constructor accepts the [m] and [k] of
    any reachable filter, and the cleared filter has the bits, [m], [k] and
    functions of the one it builds. *)
Theorem clear_is_fresh (F : BloomFilter.t) :
  reachable F ->
  exists F0,
    BloomFilter.__init__ (BloomFilter.m F) (BloomFilter.k F) = ok F0 /\
    BloomFilter.bits (BloomFilter.clear F) = BloomFilter.bits F0 /\
    BloomFilter.funcs (BloomFilter.clear F) = BloomFilter.funcs F0 /\
    BloomFilter.m (BloomFilter.clear F) = BloomFilter.m F0 /\
    BloomFilter.k (BloomFilter.clear F) = BloomFilter.k F0.
Proof.
  intros HR. apply reachable_wf in HR. destruct HR as [Hm Ha Hk Hn Hs Hw Hf].
  rewrite init_eq by assumption. eexists. split; [reflexivity|].
  cbn. split; [|auto].
  rewrite <- Hs, Z.div_mul, Nat2Z.id by lia.
  clear. induction (BloomFilter.bits F) as [|w rest IH]; cbn; congruence.
Qed.

Lemma clear_is_fresh_witness :
  let F :=
    BloomFilter.mk 64 2 [66048; 0] 1 (map (makeHashFunc 64) (xrange 2)) in
  exists F0,
    BloomFilter.__init__ (BloomFilter.m F) (BloomFilter.k F) = ok F0 /\
    BloomFilter.bits (BloomFilter.clear F) = BloomFilter.bits F0 /\
    BloomFilter.funcs (BloomFilter.clear F) = BloomFilter.funcs F0 /\
    BloomFilter.m (BloomFilter.clear F) = BloomFilter.m F0 /\
    BloomFilter.k (BloomFilter.clear F) = BloomFilter.k F0.
Proof.
  intros F. apply (clear_is_fresh F).
  apply (reach_add
           (BloomFilter.mk 64 2 [0; 0] 0 (map (makeHashFunc 64) (xrange 2)))
           "abc").
  - apply (reach_init 64 2). reflexivity.
  - apply (add_eq
             (BloomFilter.mk 64 2 [0; 0] 0 (map (makeHashFunc 64) (xrange 2)))
             "abc" [66048; 0]).
    vm_compute. reflexivity.
Defined.

(** ** Restoring a state that no filter saved *)

(** X12: [__setstate__] checks nothing.  A state whose array is empty gives
    [m = 0]; with [k > 0] every later [add] and [maycontain] raises
    [ZeroDivisionError], from the first hash function. *)
Theorem setstate_empty_array (self : BloomFilter.t) (k n : Z) (x : string) :
  0 < k ->
  let F := BloomFilter.__setstate__ self (k, n, []) in
  BloomFilter.m F = 0 /\
  BloomFilter.add F x = raise ZeroDivisionError /\
  BloomFilter.maycontain F x = raise ZeroDivisionError.
Proof.
  intros Hk F. subst F.
  unfold BloomFilter.__setstate__, BloomFilter.add, BloomFilter.maycontain.
  cbn [BloomFilter.m BloomFilter.funcs BloomFilter.bits length Z.of_nat Z.mul].
  destruct (xrange_cons k Hk) as (rest & ->).
  cbn [map for_each BloomFilter.test_bits BloomFilter.set_bit].
  rewrite makeHashFunc_zero_modulus. auto.
Qed.

Lemma setstate_empty_array_witness :
  let F := BloomFilter.__setstate__ (BloomFilter.mk 0 0 [] 0 []) (3, 5, []) in
  BloomFilter.m F = 0 /\
  BloomFilter.add F "abc" = raise ZeroDivisionError /\
  BloomFilter.maycontain F "abc" = raise ZeroDivisionError.
Proof.
  apply (setstate_empty_array (BloomFilter.mk 0 0 [] 0 []) 3 5 "abc"). lia.
Defined.

(** X13: a restored state with [k <= 0] gives a filter without hash
    functions: [maycontain] returns [True] for every item and [add] only
    increments [n], whatever the bit array holds. *)
Theorem setstate_no_functions (self : BloomFilter.t) (k n : Z)
    (bits : list Z) (x : string) :
  k <= 0 ->
  let F := BloomFilter.__setstate__ self (k, n, bits) in
  BloomFilter.funcs F = [] /\
  BloomFilter.maycontain F x = ok true /\
  BloomFilter.add F x =
    ok (BloomFilter.mk (BloomFilter.m F) k bits (n + 1) []).
Proof.
  intros Hk F. subst F.
  unfold BloomFilter.__setstate__, BloomFilter.add, BloomFilter.maycontain.
  cbn [BloomFilter.m BloomFilter.k BloomFilter.n BloomFilter.funcs
       BloomFilter.bits].
  rewrite (xrange_nil k Hk). cbn. auto.
Qed.

Lemma setstate_no_functions_witness :
  let F := BloomFilter.__setstate__ (BloomFilter.mk 0 0 [] 0 []) (0, 5, [7]) in
  BloomFilter.funcs F = [] /\
  BloomFilter.maycontain F "abc" = ok true /\
  BloomFilter.add F "abc" =
    ok (BloomFilter.mk (BloomFilter.m F) 0 [7] (5 + 1) []).
Proof.
  apply (setstate_no_functions (BloomFilter.mk 0 0 [] 0 []) 0 5 [7] "abc").
  lia.
Defined.

(** ** optimalBloom after the ceiling *)

(** X14: given a positive ceiling [mc] and a truncated quotient [kt],
    [optimalBloom] returns a filter whose [m] is the least multiple of 32
    that is at least [mc], whose [k] is [max (kt, 1)], and whose bit array
    has [m // 32] zero words. *)
Theorem optimalBloom_from_ok (mc kt : Z) (int_k : Z -> result Z) :
  0 < mc ->
  int_k (Z.land (mc + 31) (Z.lnot 0x1F)) = ok kt ->
  exists F,
    optimalBloom_from mc int_k = ok F /\
    BloomFilter.m F mod 32 = 0 /\
    mc <= BloomFilter.m F < mc + 32 /\
    BloomFilter.k F = Z.max kt 1 /\
    1 <= BloomFilter.k F /\
    BloomFilter.bits F = repeat 0 (Z.to_nat (BloomFilter.m F / 32)).
Proof.
  intros Hmc Hk. unfold optimalBloom_from. rewrite Hk. cbn [bind ok].
  destruct (round_up_32 mc) as [Heq Hb].
  rewrite init_eq.
  - eexists. split; [reflexivity|]. cbn [BloomFilter.m BloomFilter.k
                                          BloomFilter.bits].
    split; [rewrite Heq, Z.mul_comm; apply Z.mod_mul; lia|].
    split; [exact Hb|]. split; [reflexivity|]. split; [lia|reflexivity].
  - lia.
  - lia.
  - rewrite Heq, Z.mul_comm. apply Z.mod_mul. lia.
Qed.

Lemma optimalBloom_from_ok_witness :
  exists F,
    optimalBloom_from 9586 (fun m => ok (m * 7 / 10000)) = ok F /\
    BloomFilter.m F mod 32 = 0 /\
    9586 <= BloomFilter.m F < 9586 + 32 /\
    BloomFilter.k F = Z.max 6 1 /\
    1 <= BloomFilter.k F /\
    BloomFilter.bits F = repeat 0 (Z.to_nat (BloomFilter.m F / 32)).
Proof.
  apply (optimalBloom_from_ok 9586 6 (fun m => ok (m * 7 / 10000)));
    [lia | reflexivity].
Defined.

(** X15: when the ceiling [mc] is zero or negative, [optimalBloom] returns
    no filter: either [int (k)] raises or the constructor's [assert m > 0]
    does. *)
Theorem optimalBloom_from_nonpositive (mc : Z) (int_k : Z -> result Z) :
  mc <= 0 ->
  exists e, optimalBloom_from mc int_k = raise e.
Proof.
  intros Hmc. unfold optimalBloom_from.
  destruct (int_k _) as [e|kt]; cbn [bind]; [exists e; reflexivity|].
  exists AssertionError. unfold BloomFilter.__init__.
  destruct (round_up_32 mc) as [Heq Hb].
  assert ((mc + 31) / 32 <= 0) as Hq.
  { apply Z.lt_succ_r. apply Z.div_lt_upper_bound; lia. }
  destruct (Z.gtb_spec (Z.land (mc + 31) (Z.lnot 0x1F)) 0); [lia|].
  reflexivity.
Qed.

Lemma optimalBloom_from_nonpositive_witness :
  exists e, optimalBloom_from (-5) (fun m => ok 3) = raise e.
Proof.
  apply (optimalBloom_from_nonpositive (-5) (fun m => ok 3)). lia.
Defined.
